(** * Verification of the memory-quota fuzzer harness and of ChunkedVector

    Sources:
    - [src/core/lib/gprpp/chunked_vector.h]: the arena-friendly vector
      [ChunkedVector<T, kChunkSize>];
    - [test/core/resource_quota/memory_quota_fuzzer.cc]: the interpreter
      [Fuzzer::RunMsg] of fuzzer actions over the memory-quota library.

    The memory-quota library itself (memory_quota.h), the deferred-closure
    scheduler (exec_ctx.h), gpr/useful.h and the protobuf declaration of the
    actions are not among the sources. *)

From stdpp Require Import base numbers option list functions gmap.

(** ** Outcome of a call that may hit [GPR_ASSERT] or undefined behaviour *)

Inductive outcome (A : Type) : Type :=
  | Done (a : A)        (* the call returns *)
  | AssertionFailed     (* a GPR_ASSERT fired: the process aborts *)
  | Undefined.          (* null or out-of-bounds access, read of an
                           unconstructed slot, or a loop that never ends *)
Arguments Done {A} a.
Arguments AssertionFailed {A}.
Arguments Undefined {A}.

#[global] Instance outcome_ret : MRet outcome := @Done.
#[global] Instance outcome_bind : MBind outcome := λ A B f m,
  match m with
  | Done a => f a
  | AssertionFailed => AssertionFailed
  | Undefined => Undefined
  end.

(** [size_t] is taken to be 64 bits wide. *)
Definition SIZE_WIDTH : Z := 64.
Definition size_t_wrap (n : Z) : Z := n mod 2 ^ SIZE_WIDTH.

(** ** chunked_vector.h *)

Module chunked_vector.
Section defs.
Context {T : Type}.
Variable kChunkSize : nat.

(** [struct Chunk]: [data] holds the [kChunkSize] ManualConstructor slots,
    [None] for a slot that holds no constructed value.  A [Chunk*] is the
    index of the chunk among the chunks allocated so far, [None] is
    [nullptr]. *)
Record Chunk : Type := mkChunk {
  next : option nat;
  count : nat;
  data : list (option T)
}.

(** The vector: [arena_] holds the chunks this vector got from its arena,
    by address. *)
Record ChunkedVector : Type := mkVec {
  arena_ : list Chunk;
  first_ : option nat;
  append_ : option nat
}.

(** [explicit ChunkedVector(Arena* arena)] *)
Definition empty : ChunkedVector := mkVec [] None None.

(** [chunk->...] *)
Definition deref (h : list Chunk) (p : nat) : outcome Chunk :=
  match h !! p with
  | Some c => Done c
  | None => Undefined
  end.

(** [arena_->New<Chunk>()], with [Chunk() = default]. *)
Definition New (h : list Chunk) : nat * list Chunk :=
  (length h, h ++ [mkChunk None 0 (replicate kChunkSize None)]).

(** [AppendSlot]: the slot is returned as (chunk, index). *)
Definition AppendSlot (v : ChunkedVector)
  : outcome (nat * nat * ChunkedVector) :=
  v1 ← match append_ v with
       | None =>
           match first_ v with
           | None =>
               let '(p, h) := New (arena_ v) in
               Done (mkVec h (Some p) (Some p))
           | Some _ => AssertionFailed
           end
       | Some a =>
           c ← deref (arena_ v) a;
           if decide (count c = kChunkSize) then
             match next c with
             | None =>
                 let '(p, h) := New (arena_ v) in
                 Done (mkVec (<[a := mkChunk (Some p) (count c) (data c)]> h)
                             (first_ v) (Some p))
             | Some n => Done (mkVec (arena_ v) (first_ v) (Some n))
             end
           else Done v
       end;
  match append_ v1 with
  | None => Undefined
  | Some a =>
      c ← deref (arena_ v1) a;
      Done (a, count c,
            mkVec (<[a := mkChunk (next c) (S (count c)) (data c)]> (arena_ v1))
                  (first_ v1) (append_ v1))
  end.

(** [EmplaceBack]: [AppendSlot()->Init(args)].  A slot at or past
    [kChunkSize] is out of bounds. *)
Definition EmplaceBack (x : T) (v : ChunkedVector) : outcome ChunkedVector :=
  '(a, i, v1) ← AppendSlot v;
  c ← deref (arena_ v1) a;
  if decide (i < kChunkSize) then
    Done (mkVec (<[a := mkChunk (next c) (count c) (<[i := Some x]> (data c))]>
                   (arena_ v1))
                (first_ v1) (append_ v1))
  else Undefined.

(** The loop of [PopBack]:
    [while (chunk->next != append_) chunk = chunk->next;].
    The loop looks at a chunk per round; when the fuel (the number of
    chunks) runs out the chain has a cycle and the loop never ends. *)
Fixpoint PopBack_walk (fuel : nat) (h : list Chunk) (chunk : option nat)
    (append : nat) : outcome nat :=
  match chunk with
  | None => Undefined
  | Some a =>
      c ← deref h a;
      if decide (next c = Some append) then Done a
      else match fuel with
           | 0 => Undefined
           | S fuel' => PopBack_walk fuel' h (next c) append
           end
  end.

(** [PopBack].  With [append_->count == 0] the subtraction
    [append_->count - 1] wraps to SIZE_MAX, and [data[SIZE_MAX]] is out of
    bounds. *)
Definition PopBack (v : ChunkedVector) : outcome (T * ChunkedVector) :=
  match append_ v with
  | None => AssertionFailed
  | Some a =>
      c ← deref (arena_ v) a;
      a1 ← (if decide (count c = 0) then
              if decide (first_ v = append_ v) then AssertionFailed
              else PopBack_walk (length (arena_ v)) (arena_ v) (first_ v) a
            else Done a);
      c1 ← deref (arena_ v) a1;
      match count c1 with
      | 0 => Undefined
      | S last =>
          match data c1 !! last with
          | Some (Some result) =>
              Done (result,
                    mkVec (<[a1 := mkChunk (next c1) last
                                     (<[last := None]> (data c1))]> (arena_ v))
                          (first_ v) (Some a1))
          | _ => Undefined
          end
      end
  end.

(** The loop of [Clear].  A round sets the count of a chunk that had a
    non-zero count to zero, so there are at most as many rounds as chunks. *)
Fixpoint Clear_loop (fuel : nat) (h : list Chunk) (chunk : option nat)
  : outcome (list Chunk) :=
  match chunk with
  | None => Done h
  | Some a =>
      c ← deref h a;
      if decide (count c = 0) then Done h
      else match fuel with
           | 0 => Undefined
           | S fuel' =>
               if decide (count c ≤ kChunkSize) then
                 Clear_loop fuel'
                   (<[a := mkChunk (next c) 0
                             (replicate (count c) None ++ drop (count c) (data c))]> h)
                   (next c)
               else Undefined
           end
  end.

Definition Clear (v : ChunkedVector) : outcome ChunkedVector :=
  h ← Clear_loop (length (arena_ v)) (arena_ v) (first_ v);
  Done (mkVec h (first_ v) (first_ v)).

(** [size()]: the sum is a [size_t]. *)
Fixpoint size_loop (fuel : nat) (h : list Chunk) (chunk : option nat) (n : Z)
  : outcome Z :=
  match chunk with
  | None => Done n
  | Some a =>
      match fuel with
      | 0 => Undefined
      | S fuel' =>
          c ← deref h a;
          size_loop fuel' h (next c) (size_t_wrap (n + Z.of_nat (count c)))
      end
  end.

Definition size (v : ChunkedVector) : outcome Z :=
  size_loop (length (arena_ v)) (arena_ v) (first_ v) 0.

(** [ForwardIterator] *)
Record ForwardIterator : Type := mkIter { chunk_ : option nat; n_ : nat }.

#[global] Instance ForwardIterator_eq_dec : EqDecision ForwardIterator.
Proof. solve_decision. Defined.

Definition end_ : ForwardIterator := mkIter None 0.

Definition begin (v : ChunkedVector) : outcome ForwardIterator :=
  match first_ v with
  | None => Done (mkIter None 0)
  | Some a =>
      c ← deref (arena_ v) a;
      if decide (count c = 0) then Done end_ else Done (mkIter (Some a) 0)
  end.

(** The loop of [operator++], entered after [++n_]. *)
Fixpoint incr_loop (fuel : nat) (h : list Chunk) (chunk : option nat) (n : nat)
  : outcome ForwardIterator :=
  match chunk with
  | None => Done (mkIter None n)
  | Some a =>
      c ← deref h a;
      if decide (n = count c) then
        match fuel with
        | 0 => Undefined
        | S fuel' => incr_loop fuel' h (next c) 0
        end
      else Done (mkIter (Some a) n)
  end.

Definition incr (v : ChunkedVector) (it : ForwardIterator)
  : outcome ForwardIterator :=
  incr_loop (length (arena_ v)) (arena_ v) (chunk_ it) (S (n_ it)).

(** [operator*] *)
Definition star (v : ChunkedVector) (it : ForwardIterator) : outcome T :=
  match chunk_ it with
  | None => Undefined
  | Some a =>
      c ← deref (arena_ v) a;
      match data c !! n_ it with
      | Some (Some x) => Done x
      | _ => Undefined
      end
  end.

(** The elements in iteration order:
    [for (it = begin(); it != end(); ++it) ... *it ...], the traversal the
    copy constructor makes.  Each round reads another slot, and there are
    [kChunkSize] slots per chunk. *)
Fixpoint elements_loop (fuel : nat) (v : ChunkedVector) (it : ForwardIterator)
  : outcome (list T) :=
  if decide (it = end_) then Done []
  else match fuel with
       | 0 => Undefined
       | S fuel' =>
           x ← star v it;
           it' ← incr v it;
           xs ← elements_loop fuel' v it';
           Done (x :: xs)
       end.

Definition elements (v : ChunkedVector) : outcome (list T) :=
  it ← begin v;
  elements_loop (length (arena_ v) * kChunkSize) v it.

(** [ChunkedVector(Arena* arena, Iterator begin, Iterator end)]:
    [EmplaceBack] of each element of the range. *)
Definition from_range (l : list T) : outcome ChunkedVector :=
  foldl (λ o x, v ← o; EmplaceBack x v) (Done empty) l.

(** [ChunkedVector(const ChunkedVector& other)]: the range constructor on
    [other.begin()] and [other.end()]: while [begin != end], [EmplaceBack]
    of the element at [begin], then [++begin], over the chunks of [other].
    Each round reads another slot of [other]. *)
Fixpoint copy_loop (fuel : nat) (other : ChunkedVector) (it : ForwardIterator)
    (v : ChunkedVector) : outcome ChunkedVector :=
  if decide (it = end_) then Done v
  else match fuel with
       | 0 => Undefined
       | S fuel' =>
           x ← star other it;
           v' ← EmplaceBack x v;
           it' ← incr other it;
           copy_loop fuel' other it' v'
       end.

Definition copy (other : ChunkedVector) : outcome ChunkedVector :=
  it ← begin other;
  copy_loop (length (arena_ other) * kChunkSize) other it empty.

(** The vectors a program can have: built from the constructor by the
    modifying member functions. *)
Inductive reachable : ChunkedVector → Prop :=
  | reachable_empty : reachable empty
  | reachable_EmplaceBack v x v' :
      reachable v → EmplaceBack x v = Done v' → reachable v'
  | reachable_PopBack v x v' :
      reachable v → PopBack v = Done (x, v') → reachable v'
  | reachable_Clear v v' :
      reachable v → Clear v = Done v' → reachable v'.

(** *** The representation invariant *)

(** The values a chunk holds: its first [count] slots. *)
Definition constructed (c : Chunk) : list T := omap id (take (count c) (data c)).

(** The values of the vector, as its chunks hold them in address order. *)
Definition contents (v : ChunkedVector) : list T := arena_ v ≫= constructed.

(** The address [j] as a pointer into [n] chunks. *)
Definition link (n j : nat) : option nat := if decide (j < n) then Some j else None.

(** The chunk at address [j] of [n]: it points to the chunk allocated after
    it, it has [kChunkSize] slots, and its first [count] slots hold a
    value. *)
Definition chunk_wf (n j : nat) (c : Chunk) : Prop :=
  next c = link n (S j)
  ∧ length (data c) = kChunkSize
  ∧ count c ≤ kChunkSize
  ∧ ∀ s, s < count c → ∃ x, data c !! s = Some (Some x).

(** The invariant of the member functions: the chunks before [append_] are
    full and the chunks after it are empty. *)
Definition wf (v : ChunkedVector) : Prop :=
  (∀ j c, arena_ v !! j = Some c → chunk_wf (length (arena_ v)) j c)
  ∧ first_ v = link (length (arena_ v)) 0
  ∧ match append_ v with
    | None => arena_ v = []
    | Some i =>
        i < length (arena_ v)
        ∧ ∀ j c, arena_ v !! j = Some c →
                 (j < i → count c = kChunkSize) ∧ (i < j → count c = 0)
    end.

(** [AppendSlot] has to take a new chunk from the arena: [append_] is
    null, or it stands at a full chunk with a null [next]. *)
Definition needs_chunk (v : ChunkedVector) : bool :=
  match append_ v with
  | None => true
  | Some a =>
      match arena_ v !! a with
      | Some c => bool_decide (count c = kChunkSize ∧ next c = None)
      | None => false
      end
  end.

(** Where an iterator stands once it has moved to the chunk [j]: at its
    first slot, or at the end when the chunk is empty or is not there. *)
Definition start (h : list Chunk) (j : nat) : ForwardIterator :=
  match h !! j with
  | Some c => if decide (count c = 0) then end_ else mkIter (Some j) 0
  | None => end_
  end.

(** The values from the chunk [j] on. *)
Definition rest (h : list Chunk) (j : nat) : list T := drop j h ≫= constructed.

End defs.
End chunked_vector.

#[local] Open Scope Z_scope.

(** ** The fuzzer's input: memory_quota_fuzzer.proto

    The declaration is not among the sources; the messages are read off the
    accessors [RunMsg] calls.  The ids [quota], [allocator] and
    [allocation] are the [int] keys of the registries; [set_quota_size] is
    a [uint64] (it is clamped as one) and the bounds [min] and [max] are
    unsigned.  A [Reclaimer] carries the nested [Msg] its callback runs. *)

Module proto.

Inductive Pass : Type :=
  | BENIGN
  | IDLE
  | DESTRUCTIVE
  | Pass_UNRECOGNIZED (n : Z).   (* any other wire value *)

Inductive Action : Type :=
  | mkAction (quota allocator allocation : Z) (action_type : ActionType)
with ActionType : Type :=
  | kFlushExecCtx
  | kCreateQuota
  | kDeleteQuota
  | kCreateAllocator
  | kDeleteAllocator
  | kSetQuotaSize (set_quota_size : Z)
  | kRebindQuota
  | kCreateAllocation (min max : Z)
  | kDeleteAllocation
  | kPostReclaimer (post_reclaimer : Reclaimer)
  | ACTION_TYPE_NOT_SET
with Reclaimer : Type :=
  | mkReclaimer (synchronous : bool) (pass : Pass) (msg : list Action).

Definition Msg : Type := list Action.

Definition quota (a : Action) : Z := let 'mkAction q _ _ _ := a in q.
Definition allocator (a : Action) : Z := let 'mkAction _ o _ _ := a in o.
Definition allocation (a : Action) : Z := let 'mkAction _ _ r _ := a in r.
Definition action_type_case (a : Action) : ActionType :=
  let 'mkAction _ _ _ t := a in t.
Definition synchronous (cfg : Reclaimer) : bool :=
  let 'mkReclaimer s _ _ := cfg in s.
Definition pass (cfg : Reclaimer) : Pass := let 'mkReclaimer _ p _ := cfg in p.
Definition msg (cfg : Reclaimer) : Msg := let 'mkReclaimer _ _ m := cfg in m.

End proto.

(** ** The interface of the memory-quota library the fuzzer calls *)

Inductive ReclamationPass : Type := kBenign | kIdle | kDestructive.

#[global] Instance ReclamationPass_eq_dec : EqDecision ReclamationPass.
Proof. solve_decision. Defined.

(** [MemoryRequest req(min, max)] *)
Record MemoryRequest : Type := mkMemoryRequest { req_min : Z; req_max : Z }.

(** The two closures [RunMsg] builds for [kPostReclaimer], each fixed by
    the [cfg] it captures: the first runs [cfg.msg()] at once, the second
    schedules a closure that runs it. *)
Inductive ReclaimerFn : Type :=
  | SynchronousReclaimer (cfg : proto.Reclaimer)
  | ScheduledReclaimer (cfg : proto.Reclaimer).

(** The calls [RunMsg] makes into memory_quota.h, as functions over the
    state of the library ([LibState]: the quota and allocator objects the
    handles refer to, and what the library has scheduled).  A constructor
    returns the new handle; a destructor consumes one. *)
Class MemoryQuotaLib : Type := {
  LibState : Type;
  MemoryQuota : Type;
  MemoryOwner : Type;
  Reservation : Type;
  max_allowed_size : Z;                        (* MemoryRequest::max_allowed_size() *)
  MemoryQuota_new : LibState → MemoryQuota * LibState;
  MemoryQuota_delete : MemoryQuota → LibState → LibState;
  CreateMemoryOwner : MemoryQuota → LibState → MemoryOwner * LibState;
  MemoryOwner_delete : MemoryOwner → LibState → LibState;
  SetSize : MemoryQuota → Z → LibState → LibState;
  Rebind : MemoryOwner → MemoryQuota → LibState → LibState;
  MakeReservation : MemoryOwner → MemoryRequest → LibState → Reservation * LibState;
  Reservation_delete : Reservation → LibState → LibState;
  PostReclaimer : MemoryOwner → ReclamationPass → ReclaimerFn → LibState → LibState
}.

(** Modelled from the spec: gpr/useful.h is not among the sources; [Clamp]
    confines [val] to the range from [lo] to [hi], the clamp of the spec's
    section 4.2. *)
Definition Clamp (val lo hi : Z) : Z :=
  if decide (val < lo) then lo else if decide (hi < val) then hi else val.

(** [std::numeric_limits<ssize_t>::max()], and the range of the [uint64]
    field [set_quota_size]. *)
Definition SSIZE_MAX : Z := 2 ^ (SIZE_WIDTH - 1) - 1.
Definition UINT64_MAX : Z := 2 ^ 64 - 1.

(** ** memory_quota_fuzzer.cc *)

Module fuzzer.
Import proto.
Section defs.
Context `{Lib : MemoryQuotaLib}.

(** [MapReclamationPass] *)
Definition MapReclamationPass (pass : Pass) : ReclamationPass :=
  match pass with
  | BENIGN => kBenign
  | IDLE => kIdle
  | DESTRUCTIVE => kDestructive
  | _ => kBenign
  end.

(** [class Fuzzer]: the three registries, and the state of the library
    their entries refer to. *)
Record Fuzzer : Type := mkFuzzer {
  memory_quotas_ : gmap Z MemoryQuota;
  memory_allocators_ : gmap Z MemoryOwner;
  allocations_ : gmap Z Reservation;
  lib : LibState
}.

(** [WithQuota] and [WithAllocator]: [f] gets the entry, and the fuzzer it
    works on. *)
Definition WithQuota (quota : Z) (f : MemoryQuota → Fuzzer → Fuzzer)
    (st : Fuzzer) : Fuzzer :=
  match memory_quotas_ st !! quota with
  | None => st
  | Some q => f q st
  end.

Definition WithAllocator (allocator : Z) (f : MemoryOwner → Fuzzer → Fuzzer)
    (st : Fuzzer) : Fuzzer :=
  match memory_allocators_ st !! allocator with
  | None => st
  | Some a => f a st
  end.

(** [std::map::emplace(key, value)] of a value just built: a key that is
    taken keeps its entry, and the new value is destroyed. *)
Definition quotas_emplace (key : Z) (q : MemoryQuota) (st : Fuzzer) : Fuzzer :=
  match memory_quotas_ st !! key with
  | None => mkFuzzer (<[key := q]> (memory_quotas_ st)) (memory_allocators_ st)
                     (allocations_ st) (lib st)
  | Some _ => mkFuzzer (memory_quotas_ st) (memory_allocators_ st)
                       (allocations_ st) (MemoryQuota_delete q (lib st))
  end.

Definition allocators_emplace (key : Z) (a : MemoryOwner) (st : Fuzzer) : Fuzzer :=
  match memory_allocators_ st !! key with
  | None => mkFuzzer (memory_quotas_ st) (<[key := a]> (memory_allocators_ st))
                     (allocations_ st) (lib st)
  | Some _ => mkFuzzer (memory_quotas_ st) (memory_allocators_ st)
                       (allocations_ st) (MemoryOwner_delete a (lib st))
  end.

Definition allocations_emplace (key : Z) (r : Reservation) (st : Fuzzer) : Fuzzer :=
  match allocations_ st !! key with
  | None => mkFuzzer (memory_quotas_ st) (memory_allocators_ st)
                     (<[key := r]> (allocations_ st)) (lib st)
  | Some _ => mkFuzzer (memory_quotas_ st) (memory_allocators_ st)
                       (allocations_ st) (Reservation_delete r (lib st))
  end.

(** [std::map::erase(key)]: the entry, when there is one, is destroyed. *)
Definition quotas_erase (key : Z) (st : Fuzzer) : Fuzzer :=
  match memory_quotas_ st !! key with
  | None => st
  | Some q => mkFuzzer (delete key (memory_quotas_ st)) (memory_allocators_ st)
                       (allocations_ st) (MemoryQuota_delete q (lib st))
  end.

Definition allocators_erase (key : Z) (st : Fuzzer) : Fuzzer :=
  match memory_allocators_ st !! key with
  | None => st
  | Some a => mkFuzzer (memory_quotas_ st) (delete key (memory_allocators_ st))
                       (allocations_ st) (MemoryOwner_delete a (lib st))
  end.

Definition allocations_erase (key : Z) (st : Fuzzer) : Fuzzer :=
  match allocations_ st !! key with
  | None => st
  | Some r => mkFuzzer (memory_quotas_ st) (memory_allocators_ st)
                       (delete key (allocations_ st)) (Reservation_delete r (lib st))
  end.

(** A library call changes the state of the library; a constructor also
    returns the new object, with the state it leaves. *)
Definition with_lib (f : LibState → LibState) (st : Fuzzer) : Fuzzer :=
  mkFuzzer (memory_quotas_ st) (memory_allocators_ st) (allocations_ st)
           (f (lib st)).

Definition set_lib (s : LibState) (st : Fuzzer) : Fuzzer :=
  mkFuzzer (memory_quotas_ st) (memory_allocators_ st) (allocations_ st) s.

(** [ExecCtx::Get()->Flush()] drains the deferred-work queue of exec_ctx.h,
    which is not among the sources: [Flush] stands for what the drained
    closures do to the fuzzer, the nested [RunMsg] calls of the reclaimer
    bodies included. *)
Variable Flush : Fuzzer → Fuzzer.

(** One round of the loop of [RunMsg]: the [switch] on the action. *)
Definition RunAction (action : Action) (st : Fuzzer) : Fuzzer :=
  match action_type_case action with
  | kFlushExecCtx => Flush st
  | kCreateQuota =>
      let '(q, s) := MemoryQuota_new (lib st) in
      quotas_emplace (quota action) q (set_lib s st)
  | kDeleteQuota => quotas_erase (quota action) st
  | kCreateAllocator =>
      WithQuota (quota action) (λ q st,
        let '(a, s) := CreateMemoryOwner q (lib st) in
        allocators_emplace (allocator action) a (set_lib s st)) st
  | kDeleteAllocator => allocators_erase (allocator action) st
  | kSetQuotaSize set_quota_size =>
      WithQuota (quota action) (λ q st,
        with_lib (SetSize q (Clamp set_quota_size 0 SSIZE_MAX)) st) st
  | kRebindQuota =>
      WithQuota (quota action) (λ q st,
        WithAllocator (allocator action) (λ a st,
          with_lib (Rebind a q) st) st) st
  | kCreateAllocation min max =>
      if decide (min > max) then st
      else if decide (max > max_allowed_size) then st
      else
        let req := mkMemoryRequest min max in
        WithAllocator (allocator action) (λ a st,
          let '(alloc, s) := MakeReservation a req (lib st) in
          allocations_emplace (allocation action) alloc (set_lib s st)) st
  | kDeleteAllocation => allocations_erase (allocation action) st
  | kPostReclaimer cfg =>
      if synchronous cfg then
        let reclaimer := SynchronousReclaimer cfg in
        st
      else
        let reclaimer := ScheduledReclaimer cfg in
        let pass := MapReclamationPass (pass cfg) in
        WithAllocator (allocator action) (λ a st,
          with_lib (PostReclaimer a pass reclaimer) st) st
  | ACTION_TYPE_NOT_SET => st
  end.

(** [RunMsg]: the actions in order. *)
Definition RunMsg (msg : Msg) (st : Fuzzer) : Fuzzer :=
  foldl (λ st action, RunAction action st) st msg.

(** An action names a quota or an allocator its registry does not hold. *)
Definition unknown_handle (action : Action) (st : Fuzzer) : Prop :=
  match action_type_case action with
  | kSetQuotaSize _ | kCreateAllocator => memory_quotas_ st !! quota action = None
  | kRebindQuota =>
      memory_quotas_ st !! quota action = None
      ∨ memory_allocators_ st !! allocator action = None
  | kCreateAllocation _ _ | kPostReclaimer _ =>
      memory_allocators_ st !! allocator action = None
  | _ => False
  end.

(** The ids in use: the keys of the three registries. *)
Record Ids : Type := mkIds {
  quota_ids : gset Z;
  allocator_ids : gset Z;
  allocation_ids : gset Z
}.

Definition ids_of (st : Fuzzer) : Ids :=
  mkIds (dom (memory_quotas_ st)) (dom (memory_allocators_ st))
        (dom (allocations_ st)).

(** What an action other than FlushExecCtx does to the ids in use, given
    the per-request cap: the bookkeeping of [RunMsg] with the library left
    out. *)
Definition ids_step (cap : Z) (ids : Ids) (action : Action) : Ids :=
  match action_type_case action with
  | kCreateQuota =>
      mkIds ({[quota action]} ∪ quota_ids ids) (allocator_ids ids)
            (allocation_ids ids)
  | kDeleteQuota =>
      mkIds (quota_ids ids ∖ {[quota action]}) (allocator_ids ids)
            (allocation_ids ids)
  | kCreateAllocator =>
      if decide (quota action ∈ quota_ids ids) then
        mkIds (quota_ids ids) ({[allocator action]} ∪ allocator_ids ids)
              (allocation_ids ids)
      else ids
  | kDeleteAllocator =>
      mkIds (quota_ids ids) (allocator_ids ids ∖ {[allocator action]})
            (allocation_ids ids)
  | kCreateAllocation min max =>
      if decide (min ≤ max ∧ max ≤ cap ∧ allocator action ∈ allocator_ids ids)
      then mkIds (quota_ids ids) (allocator_ids ids)
                 ({[allocation action]} ∪ allocation_ids ids)
      else ids
  | kDeleteAllocation =>
      mkIds (quota_ids ids) (allocator_ids ids)
            (allocation_ids ids ∖ {[allocation action]})
  | _ => ids
  end.

Definition is_flush (action : Action) : Prop :=
  action_type_case action = kFlushExecCtx.

(** The action erases the entry [key] of a registry. *)
Definition deletes_quota (key : Z) (action : Action) : Prop :=
  action_type_case action = kDeleteQuota ∧ quota action = key.

Definition deletes_allocator (key : Z) (action : Action) : Prop :=
  action_type_case action = kDeleteAllocator ∧ allocator action = key.

Definition deletes_allocation (key : Z) (action : Action) : Prop :=
  action_type_case action = kDeleteAllocation ∧ allocation action = key.

End defs.
End fuzzer.

(** ** The reclamation pipeline (spec, section 4.4) *)

Module reclamation.

(** Modelled from the spec: the pipeline is part of memory_quota.cc, which is
    not among the sources.  "States per Quota: Normal, ReclaimingBenign,
    ReclaimingIdle, ReclaimingDestructive, Exhausted". *)
Inductive PipelineState : Type :=
  | Normal
  | ReclaimingBenign
  | ReclaimingIdle
  | ReclaimingDestructive
  | Exhausted.

Definition reclaiming (T : ReclamationPass) : PipelineState :=
  match T with
  | kBenign => ReclaimingBenign
  | kIdle => ReclaimingIdle
  | kDestructive => ReclaimingDestructive
  end.

Definition tier_of (s : PipelineState) : option ReclamationPass :=
  match s with
  | ReclaimingBenign => Some kBenign
  | ReclaimingIdle => Some kIdle
  | ReclaimingDestructive => Some kDestructive
  | Normal | Exhausted => None
  end.

(** Modelled from the spec: "Tiers are strictly ordered
    Benign < Idle < Destructive"; the tiers above [T], lowest first. *)
Definition tiers_after (T : ReclamationPass) : list ReclamationPass :=
  match T with
  | kBenign => [kIdle; kDestructive]
  | kIdle => [kDestructive]
  | kDestructive => []
  end.

Definition all_tiers : list ReclamationPass := [kBenign; kIdle; kDestructive].


(** What the pipeline of a quota does, in the order it does it: it enters a
    tier, dispatches a sweep of a tier to an owner, or takes note that the
    sweep dispatched to an owner has signalled completion. *)
Inductive Event : Type :=
  | Attempted (T : ReclamationPass)
  | Dispatched (T : ReclamationPass) (owner : nat)
  | Completed (T : ReclamationPass) (owner : nat).

(** The pipeline of one quota: its state, the owners whose sweep is still
    outstanding, and the events so far (oldest first). *)
Record Pipeline : Type := mkPipeline {
  state : PipelineState;
  outstanding : list nat;
  trace : list Event
}.

Definition initial : Pipeline := mkPipeline Normal [] [].

(** What the pipeline reads of its quota when it acts: whether
    [used > size_limit], and the owners of the quota that have a reclaimer
    registered for a tier. *)
Record View : Type := mkView {
  over_budget : bool;
  registered : ReclamationPass → list nat
}.

(** Modelled from the spec: "On entering a reclaiming state for tier T:
    dispatch one ReclamationSweep to every Owner of the Quota that has a
    registered reclaimer for T". *)
Definition enter (w : View) (T : ReclamationPass) (p : Pipeline) : Pipeline :=
  let targets := remove_dups (registered w T) in
  mkPipeline (reclaiming T) targets
             (trace p ++ Attempted T :: (Dispatched T <$> targets)).

(** Modelled from the spec: "After all sweeps for tier T complete: re-check
    used ≤ size_limit.  If satisfied, return to Normal.  If not, and T is
    not the last tier, escalate to the next tier.  If T is Destructive and
    budget is still exceeded, enter Exhausted."  [tiers] are the tiers left
    to try; a tier with no registered reclaimer has no sweep to wait for. *)
Fixpoint escalate (w : View) (tiers : list ReclamationPass) (p : Pipeline)
  : Pipeline :=
  if over_budget w then
    match tiers with
    | [] => mkPipeline Exhausted [] (trace p)
    | T :: later =>
        let p' := enter w T p in
        match outstanding p' with
        | [] => escalate w later p'
        | _ => p'
        end
    end
  else mkPipeline Normal [] (trace p).

(** What drives the pipeline: the work scheduled for the quota runs, or the
    sweep dispatched to an owner signals completion. *)
Inductive Input : Type :=
  | Run
  | SweepDone (owner : nat).

(** Modelled from the spec: section 4.4.  The scheduled work enters the
    first tier from Normal (and from Exhausted, which "remains eligible to
    re-trigger the pipeline") on the entry condition [used > size_limit];
    the completion of the last outstanding sweep of a tier makes the
    re-check, and the return to Normal "once used ≤ size_limit" is the one
    this re-check makes. *)
Definition step (w : View) (i : Input) (p : Pipeline) : Pipeline :=
  match i with
  | Run =>
      match state p with
      | Normal | Exhausted => if over_budget w then escalate w all_tiers p else p
      | _ => p
      end
  | SweepDone o =>
      match tier_of (state p) with
      | Some T =>
          if decide (o ∈ outstanding p) then
            let p' := mkPipeline (state p) (filter (λ o', o' ≠ o) (outstanding p))
                                 (trace p ++ [Completed T o]) in
            match outstanding p' with
            | [] => escalate w (tiers_after T) p'
            | _ => p'
            end
          else p
      | None => p
      end
  end.

(** An execution: the inputs in order, each with what the quota looks like
    when it arrives. *)
Definition exec (steps : list (View * Input)) (p : Pipeline) : Pipeline :=
  foldl (λ p s, step s.1 s.2 p) p steps.








End reclamation.

(** ** The quota, allocator and owner objects (spec, sections 3 and 4.1-4.3) *)

Module memory_quota.
Import reclamation.

(** Modelled from the spec: memory_quota.h is not among the sources.
    "Quota: identity, a mutable size_limit, an aggregate used counter, a set
    of bound Owners"; its pipeline state.  A quota is referred to by its
    position among the quotas created. *)
Record Quota : Type := mkQuota {
  size_limit : Z;
  used : Z;
  owners : gset nat;
  state : PipelineState
}.

(** Modelled from the spec: "Allocator: bound to exactly one Quota at any
    instant; tracks the usage it personally attributes to its bound
    Quota". *)
Record Allocator : Type := mkAllocator {
  bound : nat;
  attributed : Z
}.

(** Modelled from the spec: "Owner: wraps one Allocator; holds at most one
    active reclaimer registration per tier". *)
Record Owner : Type := mkOwner {
  allocator : Allocator;
  reclaimers : ReclamationPass → option ReclaimerFn
}.

(** Modelled from the spec: "Reservation: ... holds a granted size"; it
    releases to the allocator that issued it. *)
Record Reservation : Type := mkReservation {
  issuer : nat;
  granted : Z
}.

(** The objects created so far, and the quotas whose pipeline has been
    handed to the deferred-work scheduler. *)
Record Store : Type := mkStore {
  quotas : list Quota;
  owners_ : list Owner;
  scheduled : list nat
}.

(** Modelled from the spec: the "effectively unlimited sentinel" of
    [size_limit], taken to be the largest size [SetSize] can be given. *)
Definition unlimited : Z := SSIZE_MAX.

Definition set_quota (q : nat) (f : Quota → Quota) (s : Store) : Store :=
  mkStore (alter f q (quotas s)) (owners_ s) (scheduled s).

Definition set_owner (o : nat) (f : Owner → Owner) (s : Store) : Store :=
  mkStore (quotas s) (alter f o (owners_ s)) (scheduled s).

(** Modelled from the spec: "schedules the Reclamation Pipeline for this
    Quota (does not block the caller)". *)
Definition schedule (q : nat) (s : Store) : Store :=
  mkStore (quotas s) (owners_ s) (scheduled s ++ [q]).

Definition over_limit (q : nat) (s : Store) : bool :=
  match quotas s !! q with
  | Some qo => bool_decide (used qo > size_limit qo)
  | None => false
  end.

Definition in_progress (q : nat) (s : Store) : bool :=
  match quotas s !! q with
  | Some qo => bool_decide (is_Some (tier_of (state qo)))
  | None => false
  end.

(** Modelled from the spec: "Create(initial_limit = unlimited) → new Quota
    with used = 0". *)
Definition Create (s : Store) : nat * Store :=
  (length (quotas s),
   mkStore (quotas s ++ [mkQuota unlimited 0 ∅ Normal]) (owners_ s) (scheduled s)).

(** Modelled from the spec: "SetSize(n): sets size_limit = n.  If used > n,
    schedules the Reclamation Pipeline for this Quota". *)
Definition Quota_SetSize (q : nat) (n : Z) (s : Store) : Store :=
  let s' := set_quota q (λ qo, mkQuota n (used qo) (owners qo) (state qo)) s in
  if over_limit q s' then schedule q s' else s'.

(** Modelled from the spec: "NoteUsageChanged(delta): ... if the post-update
    used exceeds size_limit, schedules reclamation if not already in
    progress for this Quota". *)
Definition NoteUsageChanged (q : nat) (delta : Z) (s : Store) : Store :=
  let s' := set_quota q (λ qo, mkQuota (size_limit qo) (used qo + delta)
                                       (owners qo) (state qo)) s in
  if over_limit q s' && negb (in_progress q s') then schedule q s' else s'.

(** Modelled from the spec: "CreateOwner() → new Owner bound to this Quota,
    registered in the Quota's owner set". *)
Definition CreateOwner (q : nat) (s : Store) : nat * Store :=
  let o := length (owners_ s) in
  (o, set_quota q (λ qo, mkQuota (size_limit qo) (used qo) ({[o]} ∪ owners qo)
                                 (state qo))
        (mkStore (quotas s) (owners_ s ++ [mkOwner (mkAllocator q 0) (λ _, None)])
                 (scheduled s))).

(** Modelled from the spec: "headroom is the bound Quota's remaining budget
    (size_limit − used, floored at 0)". *)
Definition headroom (o : nat) (s : Store) : Z :=
  match owners_ s !! o with
  | Some ow =>
      match quotas s !! bound (allocator ow) with
      | Some qo => Z.max 0 (size_limit qo - used qo)
      | None => 0
      end
  | None => 0
  end.

Definition add_attributed (delta : Z) (ow : Owner) : Owner :=
  mkOwner (mkAllocator (bound (allocator ow)) (attributed (allocator ow) + delta))
          (reclaimers ow).

(** The allocator's usage changes by [delta], and its bound quota is told. *)
Definition attribute (o : nat) (delta : Z) (s : Store) : Store :=
  match owners_ s !! o with
  | Some ow => NoteUsageChanged (bound (allocator ow)) delta
                 (set_owner o (add_attributed delta) s)
  | None => s
  end.

(** Modelled from the spec: "MakeReservation(min, max) ...: computes
    granted = clamp(min, max, min + headroom) ...  Successful grants
    increase the Allocator's attributed usage and the bound Quota's used by
    granted, and may trigger reclamation scheduling". *)
Definition Allocator_MakeReservation (o : nat) (req : MemoryRequest) (s : Store)
  : Reservation * Store :=
  let granted := Clamp (req_min req + headroom o s) (req_min req) (req_max req) in
  (mkReservation o granted, attribute o granted s).

(** Modelled from the spec: "Reservation release (explicit or automatic)
    decreases the Allocator's attributed usage and the bound Quota's used by
    granted". *)
Definition Release (r : Reservation) (s : Store) : Store :=
  attribute (issuer r) (- granted r) s.

(** Modelled from the spec: "Rebind(newQuota): (a) removes the Allocator's
    currently attributed usage from the old Quota's used and owner set,
    (b) adds it to newQuota's used and owner set, (c) updates the
    bound-Quota reference". *)
Definition Owner_Rebind (o : nat) (newQuota : nat) (s : Store) : Store :=
  match owners_ s !! o with
  | Some ow =>
      let a := attributed (allocator ow) in
      let old := bound (allocator ow) in
      let s1 := NoteUsageChanged old (- a)
                  (set_quota old (λ qo, mkQuota (size_limit qo) (used qo)
                                                (owners qo ∖ {[o]}) (state qo)) s) in
      let s2 := NoteUsageChanged newQuota a
                  (set_quota newQuota (λ qo, mkQuota (size_limit qo) (used qo)
                                                     ({[o]} ∪ owners qo) (state qo)) s1) in
      set_owner o (λ ow, mkOwner (mkAllocator newQuota (attributed (allocator ow)))
                                 (reclaimers ow)) s2
  | None => s
  end.

(** Modelled from the spec: "PostReclaimer(pass, callback): stores callback
    as the sole active reclaimer for pass on this Owner, replacing any
    previous registration for that tier". *)
Definition Owner_PostReclaimer (o : nat) (pass : ReclamationPass)
    (callback : ReclaimerFn) (s : Store) : Store :=
  set_owner o (λ ow, mkOwner (allocator ow) (<[pass := Some callback]> (reclaimers ow))) s.

(** Modelled from the spec: Owner "Destruction: clears all tier
    registrations". *)
Definition Owner_delete (o : nat) (s : Store) : Store :=
  set_owner o (λ ow, mkOwner (allocator ow) (λ _, None)) s.

(** Modelled from the spec: Quota "Destruction: releases the owner set
    without requiring Owners to already be destroyed". *)
Definition Quota_delete (q : nat) (s : Store) : Store :=
  set_quota q (λ qo, mkQuota (size_limit qo) (used qo) ∅ (state qo)) s.

(** The library of the spec, for a per-request cap [cap] (the value of
    [MemoryRequest::max_allowed_size()] is not among the sources). *)
Definition SpecLib (cap : Z) : MemoryQuotaLib :=
  Build_MemoryQuotaLib Store nat nat Reservation cap
    Create Quota_delete CreateOwner Owner_delete Quota_SetSize Owner_Rebind
    Allocator_MakeReservation Release Owner_PostReclaimer.

Definition empty_store : Store := mkStore [] [] [].

End memory_quota.

(** ** Concrete inputs: the library of the spec with the cap of 1 GiB, and
    a fuzzer that has created quota 0 and, on it, allocator 0 *)

Definition cap_1G : Z := 1024 * 1024 * 1024.

Definition fresh_fuzzer : @fuzzer.Fuzzer (memory_quota.SpecLib cap_1G) :=
  fuzzer.mkFuzzer (Lib := memory_quota.SpecLib cap_1G) ∅ ∅ ∅
                  memory_quota.empty_store.

Definition setup_msg : proto.Msg :=
  [proto.mkAction 0 0 0 proto.kCreateQuota;
   proto.mkAction 0 0 0 proto.kCreateAllocator].

Definition ready_fuzzer : @fuzzer.Fuzzer (memory_quota.SpecLib cap_1G) :=
  fuzzer.RunMsg (Lib := memory_quota.SpecLib cap_1G) id setup_msg fresh_fuzzer.

(** Quota 0 is set to 100 bytes and two reservations of 60 bytes are made:
    the quota is over budget. *)
Definition over_budget_msg : proto.Msg :=
  [proto.mkAction 0 0 0 (proto.kSetQuotaSize 100);
   proto.mkAction 0 0 0 (proto.kCreateAllocation 60 60);
   proto.mkAction 0 0 1 (proto.kCreateAllocation 60 60)].

Definition over_budget_fuzzer : @fuzzer.Fuzzer (memory_quota.SpecLib cap_1G) :=
  fuzzer.RunMsg (Lib := memory_quota.SpecLib cap_1G) id over_budget_msg
                ready_fuzzer.

(** A vector of three values in chunks of two, and a pipeline run: the
    quota stays over budget, owners 1 and 2 have a Benign reclaimer (owner
    1 is listed twice), no owner has an Idle one, owner 3 has a
    Destructive one. *)

Definition demo_vec : @chunked_vector.ChunkedVector nat :=
  chunked_vector.mkVec
    [chunked_vector.mkChunk (Some 1%nat) 2 [Some 1%nat; Some 2%nat];
     chunked_vector.mkChunk None 1 [Some 3%nat; None]]
    (Some 0%nat) (Some 1%nat).

(** A vector of two values in one full chunk. *)
Definition demo_full : @chunked_vector.ChunkedVector nat :=
  chunked_vector.mkVec
    [chunked_vector.mkChunk None 2 [Some 1%nat; Some 2%nat]]
    (Some 0%nat) (Some 0%nat).

(** [demo_vec] after [Clear]: both chunks are kept, and hold nothing. *)
Definition demo_cleared : @chunked_vector.ChunkedVector nat :=
  chunked_vector.mkVec
    [chunked_vector.mkChunk (Some 1%nat) 0 [None; None];
     chunked_vector.mkChunk None 0 [None; None]]
    (Some 0%nat) (Some 0%nat).

Definition demo_view : reclamation.View :=
  reclamation.mkView true
    (λ T, match T with
          | kBenign => [1; 2; 1]%nat
          | kIdle => []
          | kDestructive => [3%nat]
          end).

Definition demo_steps : list (reclamation.View * reclamation.Input) :=
  [(demo_view, reclamation.Run); (demo_view, reclamation.SweepDone 2);
   (demo_view, reclamation.SweepDone 1); (demo_view, reclamation.SweepDone 3)].

(** * Properties of chunked_vector.h *)

Section list_facts.
#[local] Open Scope nat_scope.
Context {A B : Type}.
Implicit Types (f : A → list B) (l : list A).

Lemma bind_lookup_split f l i x :
  l !! i = Some x →
  l ≫= f = (take i l ≫= f) ++ f x ++ (drop (S i) l ≫= f).
Proof.
  intros H. rewrite <-(take_drop_middle l i x) at 1 by done.
  by rewrite bind_app, bind_cons.
Qed.

Lemma bind_insert_split f l i y :
  i < length l →
  <[i:=y]> l ≫= f = (take i l ≫= f) ++ f y ++ (drop (S i) l ≫= f).
Proof.
  intros H. rewrite insert_take_drop by done. by rewrite bind_app, bind_cons.
Qed.

Lemma bind_all_nil f l : (∀ x, x ∈ l → f x = []) → l ≫= f = [].
Proof.
  induction l as [|x l IH]; intros H; [done|].
  rewrite bind_cons, (H x), IH; [done | | by left].
  intros y Hy. apply H. by right.
Qed.

Lemma bind_drop_nil f l i :
  (∀ j x, l !! j = Some x → i ≤ j → f x = []) → drop i l ≫= f = [].
Proof.
  intros H. apply bind_all_nil. intros x [j Hj]%list_elem_of_lookup.
  rewrite lookup_drop in Hj. apply (H _ _ Hj). lia.
Qed.

Lemma bind_snoc f l x : (l ++ [x]) ≫= f = (l ≫= f) ++ f x.
Proof. by rewrite bind_app, bind_singleton. Qed.

End list_facts.

Section chunked_vector_facts.
Import chunked_vector.
#[local] Open Scope nat_scope.
Context {T : Type}.
Variable kChunkSize : nat.
Hypothesis kChunkSize_pos : 0 < kChunkSize.
Implicit Types (v : @ChunkedVector T) (c : @Chunk T) (h : list (@Chunk T)).
Implicit Types (x : T) (d : list (option T)).

Lemma deref_Some h p c : h !! p = Some c → deref h p = Done c.
Proof. intros H. unfold deref. by rewrite H. Qed.

Lemma link_lt n j : j < n → link n j = Some j.
Proof. intros. unfold link. by case_decide. Qed.

Lemma link_ge n j : n ≤ j → link n j = None.
Proof. intros. unfold link. case_decide; [lia | done]. Qed.

(** *** The values of a chunk *)

Lemma values_length n d :
  (∀ s, s < n → ∃ x, d !! s = Some (Some x)) →
  length (omap id (take n d)) = n.
Proof.
  induction n as [|n IH]; intros H; [by rewrite take_0|].
  destruct (H n) as [x Hx]; [lia|].
  rewrite (take_S_r _ _ _ Hx), omap_app, length_app, IH; [simpl; lia|].
  intros s Hs. apply H. lia.
Qed.

Lemma constructed_length n j c : chunk_wf kChunkSize n j c → length (constructed c) = count c.
Proof. intros (_ & _ & _ & H). by apply values_length. Qed.

Lemma constructed_empty c : count c = 0 → constructed c = [].
Proof. intros H. unfold constructed. by rewrite H, take_0. Qed.

Lemma constructed_push nx n d x :
  n < length d →
  constructed (mkChunk nx (S n) (<[n := Some x]> d))
  = constructed (mkChunk nx n d) ++ [x].
Proof.
  intros H. unfold constructed. simpl.
  rewrite (take_S_r _ _ (Some x)) by (by apply list_lookup_insert_eq).
  by rewrite take_insert_ge, omap_app by lia.
Qed.

Lemma constructed_pop nx n d x :
  d !! n = Some (Some x) →
  constructed (mkChunk nx (S n) d)
  = constructed (mkChunk nx n (<[n := None]> d)) ++ [x].
Proof.
  intros H. unfold constructed. simpl.
  by rewrite (take_S_r _ _ _ H), take_insert_ge, omap_app by lia.
Qed.

Lemma constructed_eta c : constructed c = constructed (mkChunk (next c) (count c) (data c)).
Proof. done. Qed.

Lemma constructed_next nx nx' n d :
  constructed (mkChunk nx n d) = constructed (mkChunk nx' n d).
Proof. done. Qed.


(** *** Facts about the invariant *)

Lemma wf_chunk v j c : wf kChunkSize v → arena_ v !! j = Some c →
  chunk_wf kChunkSize (length (arena_ v)) j c.
Proof. intros (H & _) Hj. by apply H. Qed.

Lemma wf_after_append v i j c :
  wf kChunkSize v → append_ v = Some i → arena_ v !! j = Some c → i < j →
  constructed c = [].
Proof.
  intros (_ & _ & H) Hi Hj Hlt. rewrite Hi in H. destruct H as (_ & H).
  apply constructed_empty. by apply (H j c Hj).
Qed.

Lemma wf_tail_empty v i :
  wf kChunkSize v → append_ v = Some i → drop (S i) (arena_ v) ≫= constructed = [].
Proof.
  intros Hwf Hi. apply bind_drop_nil. intros j c Hj Hlt.
  apply (wf_after_append v i j c); [done..|lia].
Qed.

(** The vector after [AppendSlot] has taken the slot [count c] of the chunk
    [c] at [i], and [Init] has stored [x] in it. *)
Lemma emplace_at v i c x :
  wf kChunkSize v → append_ v = Some i → arena_ v !! i = Some c →
  count c < kChunkSize →
  let v' := mkVec (<[i := mkChunk (next c) (S (count c))
                            (<[count c := Some x]> (data c))]> (arena_ v))
                  (first_ v) (Some i) in
  wf kChunkSize v' ∧ contents v' = contents v ++ [x].
Proof.
  intros Hwf Hi Hc Hlt. pose proof (lookup_lt_Some _ _ _ Hc) as Hil.
  destruct (wf_chunk _ _ _ Hwf Hc) as (Hnx & Hlen & Hcnt & Hsl).
  pose proof (wf_tail_empty _ _ Hwf Hi) as Htail.
  destruct Hwf as (Hch & Hf & Ha). rewrite Hi in Ha. destruct Ha as (_ & Ha).
  split.
  - split_and!; simpl; rewrite ?length_insert.
    + intros j c0 [(<- & <- & _)|(Hne & Hj)]%list_lookup_insert_Some.
      * split_and!; simpl; [done | by rewrite length_insert | lia |].
        intros s Hs. destruct (decide (s = count c)) as [->|Hne].
        -- exists x. apply list_lookup_insert_eq. lia.
        -- rewrite list_lookup_insert_ne by done. apply Hsl. lia.
      * by apply Hch.
    + done.
    + split; [done|].
      intros j c0 [(<- & <- & _)|(Hne & Hj)]%list_lookup_insert_Some.
      * split; lia.
      * by apply Ha.
  - unfold contents. simpl.
    rewrite bind_insert_split by done.
    rewrite (bind_lookup_split _ _ _ _ Hc), Htail, !app_nil_r.
    rewrite constructed_push by lia. by rewrite <-app_assoc.
Qed.

(** [AppendSlot] on a vector that satisfies the invariant: [v1] is the
    vector once [append_] stands at a chunk with a free slot. *)
Lemma AppendSlot_wf v :
  wf kChunkSize v →
  ∃ i c v1,
    wf kChunkSize v1 ∧ contents v1 = contents v
    ∧ append_ v1 = Some i ∧ arena_ v1 !! i = Some c ∧ count c < kChunkSize
    ∧ AppendSlot kChunkSize v
      = Done (i, count c,
              mkVec (<[i := mkChunk (next c) (S (count c)) (data c)]> (arena_ v1))
                    (first_ v1) (Some i)).
Proof.
  intros Hwf. destruct v as [h f a]. destruct a as [i|].
  - (* append_ != nullptr *)
    pose proof Hwf as (Hch & Hf & Hil & Ha). simpl in *.
    destruct (lookup_lt_is_Some_2 h i Hil) as [c Hc].
    destruct (Hch _ _ Hc) as (Hnx & Hlen & Hcnt & Hsl).
    unfold AppendSlot. simpl. rewrite (deref_Some _ _ _ Hc). simpl.
    destruct (decide (count c = kChunkSize)) as [Hfull|Hfree].
    + destruct (decide (S i < length h)) as [Hlt|Hge].
      * (* the next chunk is there *)
        rewrite Hnx, (link_lt _ _ Hlt). simpl.
        destruct (lookup_lt_is_Some_2 h (S i) Hlt) as [c2 Hc2].
        rewrite (deref_Some _ _ _ Hc2). simpl.
        exists (S i), c2, (mkVec h f (Some (S i))). simpl.
        split_and!; try done.
        -- split_and!; simpl; [done | done |].
           split; [done|]. intros j c0 Hj. split; intros Hji.
           ++ destruct (decide (j = i)) as [->|]; [congruence|].
              apply (Ha j c0 Hj). lia.
           ++ apply (Ha j c0 Hj). lia.
        -- rewrite (proj2 (Ha _ _ Hc2)); lia.
      * (* a new chunk *)
        rewrite Hnx, link_ge by lia. simpl.
        assert (length h = S i) as Hlen_h by lia.
        set (new := mkChunk None 0 (replicate kChunkSize None)).
        set (c' := mkChunk (Some (length h)) (count c) (data c)).
        assert ((h ++ [new]) !! i = Some c) as Hc_app by (by apply lookup_app_l_Some).
        assert (i < length (h ++ [new])) as Hil' by (rewrite length_app; simpl; lia).
        assert (<[i:=c']> (h ++ [new]) !! length h = Some new) as Hnew.
        { rewrite list_lookup_insert_ne by lia. by rewrite list_lookup_middle. }
        rewrite (deref_Some _ _ _ Hnew). simpl.
        exists (length h), new, (mkVec (<[i:=c']> (h ++ [new])) f (Some (length h))).
        simpl. split_and!; try done.
        -- split_and!; simpl; rewrite ?length_insert, ?length_app; simpl.
           ++ intros j c0 [(<- & <- & _)|(Hne & Hj)]%list_lookup_insert_Some.
              ** split_and!; simpl; [|done..]. rewrite link_lt; [by rewrite Hlen_h|lia].
              ** apply lookup_app_Some in Hj as [Hj|(Hge' & Hj)].
                 --- destruct (Hch _ _ Hj) as (Hnx0 & ? & ? & ?).
                     pose proof (lookup_lt_Some _ _ _ Hj).
                     split_and!; [|done..].
                     rewrite Hnx0, !link_lt; [done|lia..].
                 --- destruct (j - length h) as [|?] eqn:E; [|done].
                     simpl in Hj. injection Hj as <-.
                     split_and!; simpl; [|by rewrite length_replicate|lia|lia].
                     rewrite link_ge; [done|lia].
           ++ rewrite Hf, !link_lt; [done|lia..].
           ++ split; [lia|].
              intros j c0 [(<- & <- & _)|(Hne & Hj)]%list_lookup_insert_Some.
              ** simpl. split; [done|lia].
              ** apply lookup_app_Some in Hj as [Hj|(Hge' & Hj)].
                 --- pose proof (lookup_lt_Some _ _ _ Hj).
                     split; [|lia]. intros _. apply (Ha _ _ Hj). lia.
                 --- apply lookup_lt_Some in Hj. simpl in Hj. split; lia.
        -- unfold contents. simpl.
           rewrite bind_insert_split by done.
           change (constructed c') with (constructed c).
           rewrite <-(bind_lookup_split _ _ _ _ Hc_app).
           by rewrite bind_snoc, (constructed_empty new), app_nil_r.
    + (* the chunk at append_ has a free slot *)
      simpl. rewrite (deref_Some _ _ _ Hc). simpl.
      exists i, c, (mkVec h f (Some i)). simpl. split_and!; try done. lia.
  - (* append_ == nullptr *)
    destruct Hwf as (_ & Hf & Ha). simpl in *. subst h. simpl in Hf.
    rewrite link_ge in Hf by done. subst f.
    set (new := @mkChunk T None 0 (replicate kChunkSize None)).
    exists 0, new, (mkVec [new] (Some 0) (Some 0)). simpl.
    split_and!; try done.
    split_and!; simpl.
    + intros [|j] c0 Hj; [|done]. injection Hj as <-.
      split_and!; simpl; [done | by rewrite length_replicate | lia | lia].
    + done.
    + split; [lia|]. intros [|j] c0 Hj; [|done]. split; lia.
Qed.

(** [EmplaceBack] keeps the invariant and appends [x] to the values. *)
Lemma EmplaceBack_wf x v :
  wf kChunkSize v →
  ∃ v', EmplaceBack kChunkSize x v = Done v'
        ∧ wf kChunkSize v' ∧ contents v' = contents v ++ [x].
Proof.
  intros Hwf.
  destruct (AppendSlot_wf v Hwf) as (i & c & v1 & Hwf1 & Hcont & Hi & Hc & Hlt & Happ).
  pose proof (lookup_lt_Some _ _ _ Hc) as Hil.
  destruct (emplace_at v1 i c x Hwf1 Hi Hc Hlt) as (Hwf' & Hcont').
  eexists. split; [|split; [exact Hwf'|by rewrite Hcont', Hcont]].
  unfold EmplaceBack. rewrite Happ. simpl.
  rewrite (deref_Some _ i (mkChunk (next c) (S (count c)) (data c)))
    by (by apply list_lookup_insert_eq).
  simpl. rewrite decide_True by done. by rewrite list_insert_insert_eq.
Qed.


(** The loop of [PopBack] ends at the chunk before [append_]. *)
Lemma PopBack_walk_wf h fuel j i :
  (∀ j c, h !! j = Some c → next c = link (length h) (S j)) →
  j < i → i < length h → i - S j ≤ fuel →
  PopBack_walk fuel h (Some j) i = Done (i - 1).
Proof.
  intros Hch. revert j. induction fuel as [|fuel IH]; intros j Hji Hil Hfuel.
  - destruct (lookup_lt_is_Some_2 h j) as [c Hc]; [lia|].
    simpl. rewrite (deref_Some _ _ _ Hc). simpl.
    rewrite (Hch _ _ Hc), link_lt by lia.
    rewrite decide_True by (f_equal; lia). f_equal. lia.
  - destruct (lookup_lt_is_Some_2 h j) as [c Hc]; [lia|].
    simpl. rewrite (deref_Some _ _ _ Hc). simpl.
    rewrite (Hch _ _ Hc), link_lt by lia.
    destruct (decide (Some (S j) = Some i)) as [[= <-]|Hne].
    + f_equal. lia.
    + apply IH; [|done|]; assert (S j ≠ i) by congruence; lia.
Qed.

(** The vector after the last value of the chunk [c1] at [a1] is taken,
    when [a1] is the last chunk that holds a value. *)
Lemma pop_at h f a1 c1 last :
  wf kChunkSize (mkVec h f (Some a1)) → h !! a1 = Some c1 → count c1 = S last →
  ∃ y, data c1 !! last = Some (Some y)
       ∧ let v' := mkVec (<[a1 := mkChunk (next c1) last (<[last := None]> (data c1))]> h)
                         f (Some a1) in
         wf kChunkSize v' ∧ h ≫= constructed = contents v' ++ [y].
Proof.
  intros Hwf Hc Hcnt. pose proof (lookup_lt_Some _ _ _ Hc) as Hil.
  destruct (wf_chunk _ _ _ Hwf Hc) as (Hnx & Hlen & Hle & Hsl).
  pose proof (wf_tail_empty _ _ Hwf eq_refl) as Htail.
  destruct Hwf as (Hch & Hf & _ & Ha). simpl in *.
  destruct (Hsl last) as [y Hy]; [lia|]. exists y. split; [done|]. split.
  - split_and!; simpl; rewrite ?length_insert.
    + intros j c0 [(<- & <- & _)|(Hne & Hj)]%list_lookup_insert_Some.
      * split_and!; simpl; [done | by rewrite length_insert | lia |].
        intros s Hs. rewrite list_lookup_insert_ne by lia. apply Hsl. lia.
      * by apply Hch.
    + done.
    + split; [done|].
      intros j c0 [(<- & <- & _)|(Hne & Hj)]%list_lookup_insert_Some.
      * split; lia.
      * by apply Ha.
  - unfold contents. simpl.
    rewrite bind_insert_split by done.
    rewrite (bind_lookup_split _ _ _ _ Hc), Htail, !app_nil_r.
    rewrite (constructed_eta c1), Hcnt, (constructed_pop _ _ _ _ Hy).
    by rewrite <-app_assoc.
Qed.

(** [PopBack] on a vector that satisfies the invariant: the first assertion
    or the second fires when the vector holds no value; otherwise the last
    value is returned and removed. *)
Lemma PopBack_wf v :
  wf kChunkSize v →
  (contents v = [] ∧ PopBack v = AssertionFailed)
  ∨ (∃ l x v', contents v = l ++ [x] ∧ PopBack v = Done (x, v')
               ∧ wf kChunkSize v' ∧ contents v' = l).
Proof.
  intros Hwf. destruct v as [h f a]. destruct a as [i|].
  - pose proof Hwf as (Hch & Hf & Hil & Ha). simpl in *.
    destruct (lookup_lt_is_Some_2 h i Hil) as [c Hc].
    assert (∃ a1 c1 last,
      (if decide (count c = 0) then
         if decide (f = Some i) then AssertionFailed
         else PopBack_walk (length h) h f i
       else Done i) = Done a1
      ∧ h !! a1 = Some c1 ∧ count c1 = S last
      ∧ wf kChunkSize (mkVec h f (Some a1))
      ∨ contents (mkVec h f (Some i)) = [] ∧ count c = 0 ∧ f = Some i) as Hcase.
    { destruct (decide (count c = 0)) as [Hz|Hnz].
      - destruct i as [|i'].
        + exists 0, c, 0. right. rewrite Hf, link_lt by lia. split_and!; [|done..].
          apply (bind_drop_nil _ h 0). intros j c0 Hj _.
          apply constructed_empty. destruct j; [congruence|].
          apply (Ha _ _ Hj). lia.
        + destruct (lookup_lt_is_Some_2 h i') as [c1 Hc1]; [lia|].
          pose proof (proj1 (Ha _ _ Hc1)) as Hfull.
          assert (∃ last, kChunkSize = S last) as [last Hk]
            by (exists (kChunkSize - 1); lia).
          exists i', c1, last. left.
          rewrite Hf, link_lt by lia.
          rewrite decide_False by done.
          rewrite (PopBack_walk_wf h (length h) 0 (S i')); [|..|lia|lia|lia].
          * split_and!; [f_equal; lia | done | rewrite <-Hk; apply Hfull; lia |].
            split_and!; simpl; [done | by rewrite link_lt by lia |].
            split; [lia|]. intros j c0 Hj. split; intros Hji.
            -- apply (Ha _ _ Hj). lia.
            -- destruct (decide (j = S i')) as [->|]; [congruence|].
               apply (Ha _ _ Hj). lia.
          * intros j c0 Hj. by destruct (Hch _ _ Hj).
      - destruct (count c) as [|last] eqn:Hcnt; [done|].
        exists i, c, last. left. by split_and!. }
    destruct Hcase as (a1 & c1 & last & [(Hgo & Hc1 & Hcnt & Hwf1)|(Hnil & Hz & Hfi)]).
    + right. destruct (pop_at h f a1 c1 last Hwf1 Hc1 Hcnt) as (y & Hy & Hwf' & Hcont).
      eexists _, y, _. split; [exact Hcont|].
      split; [|split; [exact Hwf'|done]].
      unfold PopBack. simpl. rewrite (deref_Some _ _ _ Hc). simpl.
      rewrite Hgo. simpl. rewrite (deref_Some _ _ _ Hc1). simpl.
      by rewrite Hcnt, Hy.
    + left. split; [done|]. unfold PopBack. simpl.
      rewrite (deref_Some _ _ _ Hc). simpl.
      by rewrite decide_True, decide_True by done.
  - left. destruct Hwf as (_ & _ & Ha). simpl in Ha. by subst h.
Qed.


(** The loop of [Clear], started at chunk [j] of a chain whose chunks
    before [j] are empty already: it ends with every chunk empty. *)
Lemma Clear_loop_wf fuel h j i :
  (∀ m c, h !! m = Some c → chunk_wf kChunkSize (length h) m c) →
  (∀ m c, h !! m = Some c →
     (m < j → count c = 0) ∧ (j ≤ m < i → count c = kChunkSize)
     ∧ (i < m → count c = 0)) →
  j ≤ S i → S i - j ≤ fuel →
  ∃ h', Clear_loop kChunkSize fuel h (link (length h) j) = Done h'
        ∧ length h' = length h
        ∧ ∀ m c, h' !! m = Some c →
                 chunk_wf kChunkSize (length h) m c ∧ count c = 0.
Proof.
  revert h j. induction fuel as [|fuel IH]; intros h j Hch Hcnt Hji Hfuel.
  all: destruct (decide (j < length h)) as [Hjl|Hjl];
    [rewrite link_lt by done; destruct (lookup_lt_is_Some_2 h j Hjl) as [c Hc];
     simpl; rewrite (deref_Some _ _ _ Hc); simpl;
     destruct (decide (count c = 0)) as [Hz|Hnz]
    |rewrite link_ge by lia; simpl].
  all: try (exists h; split_and!; [done..|]; intros m c0 Hm; split; [by apply Hch|];
            pose proof (lookup_lt_Some _ _ _ Hm);
            destruct (Hcnt _ _ Hm) as (H1 & H2 & H3);
            try (destruct (Hcnt _ _ Hc) as (_ & H2' & _));
            destruct (decide (m = j)) as [->|]; [congruence|];
            destruct (decide (m < j)); [by apply H1|]; apply H3; lia).
  - (* no fuel, a chunk to clear: it is the chunk at [S i], which is empty *)
    destruct (Hcnt _ _ Hc) as (_ & _ & H3). exfalso. apply Hnz, H3. lia.
  - (* a chunk to clear *)
    destruct (Hch _ _ Hc) as (Hnx & Hlen & Hle & Hsl).
    assert (j ≤ i) as Hji'.
    { destruct (decide (j ≤ i)); [done|]. exfalso.
      apply Hnz. apply (Hcnt _ _ Hc). lia. }
    rewrite decide_True by done.
    set (c' := mkChunk (next c) 0 (replicate (count c) None ++ drop (count c) (data c))).
    destruct (IH (<[j:=c']> h) (S j)) as (h' & Hgo & Hlen' & Hall).
    + rewrite length_insert.
      intros m c0 [(<- & <- & _)|(Hne & Hm)]%list_lookup_insert_Some; [|by apply Hch].
      split_and!; simpl; [done | | lia | lia].
      rewrite length_app, length_replicate, length_drop. lia.
    + intros m c0 [(<- & <- & _)|(Hne & Hm)]%list_lookup_insert_Some.
      * simpl. split_and!; [done | lia | lia].
      * destruct (Hcnt _ _ Hm) as (H1 & H2 & H3).
        split_and!; [intros; apply H1; lia | intros; apply H2; lia | done].
    + lia.
    + lia.
    + exists h'. rewrite length_insert in *. split_and!; [|done..].
      by rewrite Hnx.
Qed.

(** [Clear] keeps the invariant and leaves the vector without values. *)
Lemma Clear_wf v :
  wf kChunkSize v →
  ∃ v', Clear kChunkSize v = Done v' ∧ wf kChunkSize v' ∧ contents v' = [].
Proof.
  intros Hwf. destruct v as [h f a]. destruct a as [i|].
  - destruct Hwf as (Hch & Hf & Hil & Ha). simpl in *.
    destruct (Clear_loop_wf (length h) h 0 i) as (h' & Hgo & Hlen & Hall);
      [done | | lia | lia |].
    { intros m c Hm. destruct (Ha _ _ Hm). split_and!; [lia | intros; auto with lia | done]. }
    exists (mkVec h' f f). unfold Clear. simpl. rewrite Hf, Hgo. simpl.
    rewrite link_lt by lia.
    split; [done|]. split.
    + split_and!; simpl; rewrite ?Hlen.
      * intros m c Hm. by apply Hall.
      * by rewrite link_lt by lia.
      * split; [lia|]. intros m c Hm.
        destruct (Hall _ _ Hm) as (_ & ->). split; [lia|done].
    + apply bind_all_nil. intros c [m Hm]%list_elem_of_lookup.
      apply constructed_empty. by apply (Hall _ _ Hm).
  - destruct Hwf as (_ & Hf & Ha). simpl in *. subst h. simpl in Hf.
    rewrite link_ge in Hf by done. subst f.
    exists (mkVec [] None None). split_and!; [done | | done].
    split_and!; simpl; [by intros [|?] ? ?|done|done].
Qed.

(** The loop of [size()] adds the counts of the chunks from [j] on. *)
Lemma size_loop_wf fuel h j n :
  (∀ m c, h !! m = Some c → next c = link (length h) (S m)) →
  length h - j ≤ fuel → size_t_wrap n = n →
  size_loop fuel h (link (length h) j) n
  = Done (size_t_wrap (n + Z.of_nat (sum_list (count <$> drop j h)))).
Proof.
  intros Hch. revert j n. induction fuel as [|fuel IH]; intros j n Hfuel Hn.
  all: destruct (decide (j < length h)) as [Hjl|Hjl]; [|rewrite link_ge by lia; simpl].
  all: try (rewrite drop_ge by lia; simpl; by rewrite Z.add_0_r, Hn).
  - lia.
  - rewrite link_lt by done. destruct (lookup_lt_is_Some_2 h j Hjl) as [c Hc].
    simpl. rewrite (deref_Some _ _ _ Hc). simpl.
    rewrite (Hch _ _ Hc), IH; [|lia|].
    + f_equal. rewrite (drop_S _ _ _ Hc). simpl.
      unfold size_t_wrap. rewrite Zplus_mod_idemp_l. f_equal. rewrite Nat2Z.inj_add, Z.add_assoc. reflexivity.
    + unfold size_t_wrap. by rewrite Zmod_mod.
Qed.

Lemma contents_length h :
  (∀ m c, h !! m = Some c → chunk_wf kChunkSize (length h) m c) →
  length (h ≫= constructed) = sum_list (count <$> h).
Proof.
  generalize (length h). intros n. revert n. 
  assert (∀ (n k0 : nat), (∀ m c, h !! m = Some c → chunk_wf kChunkSize n (k0 + m) c) →
          length (h ≫= constructed) = sum_list (count <$> h)) as Hgen.
  { induction h as [|c h IH]; intros n k0 H; [done|].
    rewrite bind_cons, length_app. simpl.
    rewrite (constructed_length n (k0 + 0) c) by (by apply H).
    f_equal. apply (IH n (S k0)). intros m c0 Hm.
    replace (S k0 + m) with (k0 + S m) by lia. by apply H. }
  intros n H. by apply (Hgen n 0).
Qed.

(** [size()] is the number of values, as a [size_t]. *)
Lemma size_wf v :
  wf kChunkSize v →
  size v = Done (size_t_wrap (Z.of_nat (length (contents v)))).
Proof.
  intros (Hch & Hf & _). unfold size, contents. rewrite Hf.
  rewrite size_loop_wf; [|intros m c Hm; by destruct (Hch _ _ Hm)|lia|done].
  by rewrite drop_0, Z.add_0_l, contents_length.
Qed.


(** *** The iterator *)

Lemma values_fmap n d :
  (∀ s, s < n → ∃ x, d !! s = Some (Some x)) →
  Some <$> omap id (take n d) = take n d.
Proof.
  induction n as [|n IH]; intros H; [by rewrite take_0|].
  destruct (H n) as [x Hx]; [lia|].
  rewrite (take_S_r _ _ _ Hx), omap_app, fmap_app, IH; [done|].
  intros s Hs. apply H. lia.
Qed.

Lemma constructed_lookup n j c s :
  chunk_wf kChunkSize n j c → s < count c →
  ∃ x, data c !! s = Some (Some x) ∧ constructed c !! s = Some x.
Proof.
  intros (_ & _ & _ & Hsl) Hs. destruct (Hsl s Hs) as [x Hx]. exists x. split; [done|].
  pose proof (values_fmap _ _ Hsl) as Hfm.
  assert ((Some <$> constructed c) !! s = Some (Some x)) as Hlk.
  { unfold constructed. rewrite Hfm. by rewrite lookup_take_lt. }
  rewrite list_lookup_fmap in Hlk.
  destruct (constructed c !! s); simpl in Hlk; congruence.
Qed.

Lemma incr_loop_skip fuel h j :
  (∀ m c, h !! m = Some c → next c = link (length h) (S m)) →
  (∀ m c, h !! m = Some c → j ≤ m → count c = 0) →
  length h - j ≤ fuel →
  incr_loop fuel h (link (length h) j) 0 = Done end_.
Proof.
  intros Hch Hz. revert j Hz. induction fuel as [|fuel IH]; intros j Hz Hfuel.
  all: destruct (decide (j < length h)) as [Hjl|Hjl];
    [|by rewrite link_ge by lia].
  - lia.
  - rewrite link_lt by done. destruct (lookup_lt_is_Some_2 h j Hjl) as [c Hc].
    simpl. rewrite (deref_Some _ _ _ Hc). simpl.
    rewrite decide_True by (symmetry; by apply (Hz _ _ Hc)).
    rewrite (Hch _ _ Hc). apply IH; [|lia].
    intros m c0 Hm Hle. apply (Hz _ _ Hm). lia.
Qed.

Lemma wf_next v m c :
  wf kChunkSize v → arena_ v !! m = Some c → next c = link (length (arena_ v)) (S m).
Proof. intros Hwf Hm. by destruct (wf_chunk _ _ _ Hwf Hm). Qed.

(** In a vector that satisfies the invariant, the chunks after an empty
    chunk are empty. *)
Lemma wf_empty_rest v j c m c' :
  wf kChunkSize v → arena_ v !! j = Some c → count c = 0 →
  arena_ v !! m = Some c' → j ≤ m → count c' = 0.
Proof.
  intros (_ & _ & Ha) Hj Hz Hm Hle. destruct (append_ v) as [i|].
  - destruct Ha as (_ & Ha).
    destruct (decide (m = j)) as [->|]; [congruence|].
    apply (Ha _ _ Hm). destruct (decide (j < i)) as [Hji|]; [|lia].
    pose proof (proj1 (Ha _ _ Hj) Hji). lia.
  - by rewrite Ha in Hm.
Qed.

Lemma incr_loop_start v fuel j :
  wf kChunkSize v → length (arena_ v) - j ≤ fuel →
  incr_loop fuel (arena_ v) (link (length (arena_ v)) j) 0
  = Done (start (arena_ v) j).
Proof.
  intros Hwf Hfuel. unfold start.
  destruct (decide (j < length (arena_ v))) as [Hjl|Hjl].
  - destruct (lookup_lt_is_Some_2 _ j Hjl) as [c Hc]. rewrite Hc.
    destruct (decide (count c = 0)) as [Hz|Hnz].
    + apply incr_loop_skip; [|by eauto using wf_empty_rest|done].
      intros m c0 Hm. by apply (wf_next v).
    + rewrite link_lt by done.
      destruct fuel; simpl; rewrite (deref_Some _ _ _ Hc); simpl;
        by rewrite decide_False by congruence.
  - rewrite link_ge, lookup_ge_None_2 by lia. by destruct fuel.
Qed.

Lemma begin_wf v : wf kChunkSize v → begin v = Done (start (arena_ v) 0).
Proof.
  intros (_ & Hf & _). unfold begin, start. rewrite Hf.
  destruct (arena_ v) as [|c h] eqn:E; [done|].
  rewrite link_lt by (simpl; lia). simpl. unfold deref. simpl.
  by case_decide.
Qed.

Lemma rest_cons h j c : h !! j = Some c → rest h j = constructed c ++ rest h (S j).
Proof. intros H. unfold rest. by rewrite (drop_S _ _ _ H), bind_cons. Qed.

Lemma rest_start_end v j :
  wf kChunkSize v → start (arena_ v) j = end_ → rest (arena_ v) j = [].
Proof.
  intros Hwf. unfold start. destruct (arena_ v !! j) as [c|] eqn:Hc.
  - case_decide as Hz; [|done]. intros _.
    apply bind_drop_nil. intros m c' Hm Hle. apply constructed_empty.
    by apply (wf_empty_rest v j c m c').
  - intros _. unfold rest. by rewrite drop_ge by (by apply lookup_ge_None_1).
Qed.

Lemma elements_loop_end fuel v : elements_loop fuel v end_ = Done [].
Proof. by destruct fuel. Qed.

(** The traversal from the slot [n] of the chunk at [a] reads the values
    from there on. *)
Lemma elements_loop_wf v fuel a n c :
  wf kChunkSize v → arena_ v !! a = Some c → n < count c →
  length (drop n (constructed c) ++ rest (arena_ v) (S a)) ≤ fuel →
  elements_loop fuel v (mkIter (Some a) n)
  = Done (drop n (constructed c) ++ rest (arena_ v) (S a)).
Proof.
  intros Hwf. revert a n c.
  induction fuel as [|fuel IH]; intros a n c Hc Hn Hfuel.
  all: pose proof (wf_chunk _ _ _ Hwf Hc) as Hcw;
    destruct (constructed_lookup _ _ _ _ Hcw Hn) as (x & Hx & Hcx);
    rewrite (drop_S _ _ _ Hcx) in Hfuel |- *; simpl in Hfuel.
  { lia. }
  pose proof (lookup_lt_Some _ _ _ Hc) as Hal.
  simpl.
  unfold star. simpl. rewrite (deref_Some _ _ _ Hc). simpl. rewrite Hx. simpl.
  unfold incr. simpl.
  destruct (length (arena_ v)) as [|len'] eqn:Hlen; [lia|]. simpl.
  rewrite (deref_Some _ _ _ Hc). simpl.
  destruct (decide (S n = count c)) as [Hlast|Hmore].
  - (* the last value of the chunk *)
    rewrite (wf_next v a c), Hlen by done. rewrite <-Hlen at 1.
    rewrite incr_loop_start by (done || lia). simpl.
    rewrite drop_ge by (rewrite (constructed_length _ _ _ Hcw); lia). simpl.
    destruct (decide (start (arena_ v) (S a) = end_)) as [Hend|Hgo].
    + by rewrite Hend, elements_loop_end, (rest_start_end v).
    + unfold start in Hgo |- *.
      destruct (arena_ v !! S a) as [c2|] eqn:Hc2; [|done].
      case_decide as Hz; [done|].
      rewrite (rest_cons _ _ _ Hc2) in Hfuel |- *.
      rewrite drop_ge in Hfuel by (rewrite (constructed_length _ _ _ Hcw); lia).
      simpl in Hfuel.
      rewrite (IH (S a) 0 c2); [by rewrite drop_0 | done | lia |].
      rewrite drop_0. lia.
  - simpl. rewrite (IH a (S n) c); [done..|lia|lia].
Qed.

Lemma sum_counts_bound h n :
  (∀ m c, h !! m = Some c → ∃ j, chunk_wf kChunkSize n j c) →
  sum_list (count <$> h) ≤ length h * kChunkSize.
Proof.
  induction h as [|c h IH]; intros H; [done|]. simpl.
  destruct (H 0 c eq_refl) as (j & _ & _ & Hle & _).
  assert (sum_list (count <$> h) ≤ length h * kChunkSize).
  { apply IH. intros m c0 Hm. by apply (H (S m)). }
  change (list_fmap Chunk nat count h) with (count <$> h). lia.
Qed.

(** The traversal of a vector that satisfies the invariant yields its
    values. *)
Lemma elements_wf v :
  wf kChunkSize v → elements kChunkSize v = Done (contents v).
Proof.
  intros Hwf. unfold elements. rewrite begin_wf by done. simpl.
  assert (length (contents v) ≤ length (arena_ v) * kChunkSize) as Hfuel.
  { unfold contents. rewrite contents_length by (by destruct Hwf).
    apply (sum_counts_bound _ (length (arena_ v))).
    intros m c Hm. exists m. by apply wf_chunk. }
  change (contents v) with (rest (arena_ v) 0) in *. 
  destruct (decide (start (arena_ v) 0 = end_)) as [Hend|Hgo].
  - by rewrite Hend, elements_loop_end, (rest_start_end v).
  - unfold start in Hgo |- *.
    destruct (arena_ v !! 0) as [c|] eqn:Hc; [|done].
    case_decide as Hz; [done|].
    rewrite (rest_cons _ _ _ Hc) in Hfuel |- *.
    rewrite (elements_loop_wf v _ 0 0 c); [by rewrite drop_0|done..|lia|].
    by rewrite drop_0.
Qed.


(** *** The vectors a program can have *)

Lemma empty_wf : wf kChunkSize (@empty T).
Proof. split_and!; simpl; [by intros [|?] ? ? | done | done]. Qed.

Lemma reachable_wf v : reachable kChunkSize v → wf kChunkSize v.
Proof.
  induction 1 as [|v x v' _ IH Hop|v x v' _ IH Hop|v v' _ IH Hop].
  - apply empty_wf.
  - destruct (EmplaceBack_wf x v IH) as (v'' & Hgo & Hwf & _). congruence.
  - destruct (PopBack_wf v IH) as [(_ & Hgo)|(l & y & v'' & _ & Hgo & Hwf & _)];
      congruence.
  - destruct (Clear_wf v IH) as (v'' & Hgo & Hwf & _). congruence.
Qed.

(** C9: on every vector a program can have, [EmplaceBack(x)] returns, the
    [PopBack()] that follows returns [x], and the vector then has the
    elements, in iteration order, and the [size()] it had before. *)
Theorem EmplaceBack_PopBack v x :
  reachable kChunkSize v →
  ∃ v1 v2 l,
    EmplaceBack kChunkSize x v = Done v1
    ∧ PopBack v1 = Done (x, v2)
    ∧ elements kChunkSize v = Done l
    ∧ elements kChunkSize v1 = Done (l ++ [x])
    ∧ elements kChunkSize v2 = Done l
    ∧ size v2 = size v
    ∧ size v = Done (size_t_wrap (Z.of_nat (length l))).
Proof.
  intros Hwf%reachable_wf.
  destruct (EmplaceBack_wf x v Hwf) as (v1 & Hgo1 & Hwf1 & Hc1).
  destruct (PopBack_wf v1 Hwf1) as [(Hnil & _)|(l & y & v2 & Hc & Hgo2 & Hwf2 & Hc2)].
  { rewrite Hc1 in Hnil. by destruct (contents v). }
  rewrite Hc1 in Hc. apply app_inj_tail in Hc as [<- <-].
  exists v1, v2, (contents v).
  rewrite !elements_wf, !size_wf by done. rewrite Hc1, Hc2. by split_and!.
Qed.

(** C10: on every vector a program can have, with [l] its elements:
    when [size()] is positive, [PopBack] fires no assertion, returns the
    last element and leaves the elements before it; when there is no
    element, [PopBack] stops at a failed assertion. *)
Theorem PopBack_nonempty_or_assertion v :
  reachable kChunkSize v →
  ∃ l n,
    elements kChunkSize v = Done l
    ∧ size v = Done n
    ∧ ((0 < n)%Z →
       ∃ l' x v', l = l' ++ [x] ∧ PopBack v = Done (x, v')
                  ∧ elements kChunkSize v' = Done l'
                  ∧ reachable kChunkSize v')
    ∧ (l = [] → n = 0%Z ∧ PopBack v = AssertionFailed).
Proof.
  intros Hr. pose proof (reachable_wf v Hr) as Hwf.
  exists (contents v), (size_t_wrap (Z.of_nat (length (contents v)))).
  rewrite elements_wf, size_wf by done. split_and!; [done..| |].
  - intros Hn.
    destruct (PopBack_wf v Hwf) as [(Hnil & _)|(l & y & v2 & Hc & Hgo2 & Hwf2 & Hc2)].
    { rewrite Hnil in Hn. by compute in Hn. }
    exists l, y, v2. rewrite elements_wf by done. split_and!; try done.
    + by rewrite Hc2.
    + by apply (reachable_PopBack kChunkSize v y v2).
  - intros Hnil. rewrite Hnil. split; [done|].
    destruct (PopBack_wf v Hwf) as [(_ & Hgo)|(l & y & v2 & Hc & _)]; [done|].
    rewrite Hnil in Hc. by destruct l.
Qed.

End chunked_vector_facts.

(** * Properties of memory_quota_fuzzer.cc *)

Section fuzzer_facts.
Import proto fuzzer.
Context `{Lib : MemoryQuotaLib}.
Variable Flush : Fuzzer → Fuzzer.

Lemma WithQuota_unknown key f (st : Fuzzer) :
  memory_quotas_ st !! key = None → WithQuota key f st = st.
Proof. intros H. unfold WithQuota. by rewrite H. Qed.

Lemma WithAllocator_unknown key f (st : Fuzzer) :
  memory_allocators_ st !! key = None → WithAllocator key f st = st.
Proof. intros H. unfold WithAllocator. by rewrite H. Qed.

Lemma WithQuota_known key f (st : Fuzzer) q :
  memory_quotas_ st !! key = Some q → WithQuota key f st = f q st.
Proof. intros H. unfold WithQuota. by rewrite H. Qed.

Lemma WithAllocator_known key f (st : Fuzzer) a :
  memory_allocators_ st !! key = Some a → WithAllocator key f st = f a st.
Proof. intros H. unfold WithAllocator. by rewrite H. Qed.

(** C1: a CreateAllocation whose bounds have [min > max], or whose [max]
    is above [MemoryRequest::max_allowed_size()], leaves the fuzzer as it
    was: no reservation is made or recorded, and the registries and the
    state of the library (quotas, allocators) are unchanged. *)
Theorem CreateAllocation_invalid_request_rejected
    (st : Fuzzer) (q a r min max : Z) :
  min > max ∨ max > max_allowed_size →
  RunAction Flush (mkAction q a r (kCreateAllocation min max)) st = st.
Proof.
  intros Hbad. unfold RunAction. simpl.
  destruct (decide (min > max)) as [|Hle]; [done|].
  destruct (decide (max > max_allowed_size)) as [|Hcap]; [done|].
  destruct Hbad; contradiction.
Qed.

(** The synchronous branch of kPostReclaimer builds its closure and leaves
    the switch: [PostReclaimer] is called in the other branch only. *)
Lemma PostReclaimer_synchronous_noop (st : Fuzzer) (q a r : Z) pass msg :
  RunAction Flush (mkAction q a r (kPostReclaimer (mkReclaimer true pass msg))) st
  = st.
Proof. reflexivity. Qed.

(** The scheduled branch calls [PostReclaimer] on a live allocator. *)
Lemma PostReclaimer_scheduled_posts (st : Fuzzer) (q a r : Z) pass msg o :
  memory_allocators_ st !! a = Some o →
  RunAction Flush (mkAction q a r (kPostReclaimer (mkReclaimer false pass msg))) st
  = with_lib (PostReclaimer o (MapReclamationPass pass)
                (ScheduledReclaimer (mkReclaimer false pass msg))) st.
Proof.
  intros Ha. unfold RunAction. simpl. by rewrite (WithAllocator_known _ _ _ o).
Qed.

(** A CreateAllocation that passes the two guards and names a live
    allocator calls [MakeReservation] on it and emplaces what it returns,
    for every implementation of the library. *)
Lemma CreateAllocation_valid_request_calls
    (st : Fuzzer) (q a r min max : Z) (o : MemoryOwner) :
  min ≤ max →
  max ≤ max_allowed_size →
  memory_allocators_ st !! a = Some o →
  RunAction Flush (mkAction q a r (kCreateAllocation min max)) st
  = let '(res, s) := MakeReservation o (mkMemoryRequest min max) (lib st) in
    allocations_emplace r res (set_lib s st).
Proof.
  intros Hle Hcap Ha. unfold RunAction. simpl.
  destruct (decide (min > max)) as [|_]; [lia|].
  destruct (decide (max > max_allowed_size)) as [|_]; [lia|].
  by rewrite (WithAllocator_known _ _ _ o).
Qed.
(** C4: SetQuotaSize, CreateAllocator, RebindQuota, CreateAllocation and
    PostReclaimer on a quota id or an allocator id that its registry does
    not hold return with the fuzzer unchanged: registries, quotas,
    allocators and allocations are as before. *)
Theorem unknown_handle_is_noop (action : Action) (st : Fuzzer) :
  unknown_handle action st → RunAction Flush action st = st.
Proof.
  destruct action as [q a r ty]. unfold unknown_handle, RunAction. simpl.
  destruct ty as [| | | | |n| |min max| |cfg|]; simpl; try done.
  - apply WithQuota_unknown.
  - apply WithQuota_unknown.
  - intros [Hq|Ha]; [by apply WithQuota_unknown|].
    unfold WithQuota. destruct (memory_quotas_ st !! q); [|done].
    by apply WithAllocator_unknown.
  - intros Ha. repeat case_decide; try done. by apply WithAllocator_unknown.
  - intros Ha. destruct (synchronous cfg); [done|]. by apply WithAllocator_unknown.
Qed.

Lemma quotas_erase_absent key (st : Fuzzer) :
  memory_quotas_ st !! key = None → quotas_erase key st = st.
Proof. intros H. unfold quotas_erase. by rewrite H. Qed.

Lemma allocators_erase_absent key (st : Fuzzer) :
  memory_allocators_ st !! key = None → allocators_erase key st = st.
Proof. intros H. unfold allocators_erase. by rewrite H. Qed.

Lemma allocations_erase_absent key (st : Fuzzer) :
  allocations_ st !! key = None → allocations_erase key st = st.
Proof. intros H. unfold allocations_erase. by rewrite H. Qed.

Lemma quotas_erase_gone key (st : Fuzzer) :
  memory_quotas_ (quotas_erase key st) !! key = None.
Proof.
  unfold quotas_erase. destruct (memory_quotas_ st !! key) eqn:E; simpl; [|done].
  apply lookup_delete_eq.
Qed.

Lemma allocators_erase_gone key (st : Fuzzer) :
  memory_allocators_ (allocators_erase key st) !! key = None.
Proof.
  unfold allocators_erase.
  destruct (memory_allocators_ st !! key) eqn:E; simpl; [|done].
  apply lookup_delete_eq.
Qed.

Lemma allocations_erase_gone key (st : Fuzzer) :
  allocations_ (allocations_erase key st) !! key = None.
Proof.
  unfold allocations_erase. destruct (allocations_ st !! key) eqn:E; simpl; [|done].
  apply lookup_delete_eq.
Qed.

(** C6: DeleteQuota, DeleteAllocator and DeleteAllocation, each run a
    second time with the same id, return with the fuzzer exactly as the
    first run left it. *)
Theorem delete_twice_is_noop (st : Fuzzer) (q a r : Z) :
  (let st1 := RunAction Flush (mkAction q a r kDeleteQuota) st in
   RunAction Flush (mkAction q a r kDeleteQuota) st1 = st1)
  ∧ (let st1 := RunAction Flush (mkAction q a r kDeleteAllocator) st in
     RunAction Flush (mkAction q a r kDeleteAllocator) st1 = st1)
  ∧ (let st1 := RunAction Flush (mkAction q a r kDeleteAllocation) st in
     RunAction Flush (mkAction q a r kDeleteAllocation) st1 = st1).
Proof.
  unfold RunAction. simpl. split_and!.
  - apply quotas_erase_absent, quotas_erase_gone.
  - apply allocators_erase_absent, allocators_erase_gone.
  - apply allocations_erase_absent, allocations_erase_gone.
Qed.

End fuzzer_facts.

(** * The fuzzer over the library of the spec *)

Section spec_lib_facts.
Import proto fuzzer memory_quota.
Variable cap : Z.
Abbreviation SpecFuzzer := (@Fuzzer (SpecLib cap)).
Variable Flush : SpecFuzzer → SpecFuzzer.

Lemma Clamp_bounds (val lo hi : Z) : lo ≤ hi → lo ≤ Clamp val lo hi ≤ hi.
Proof. intros H. unfold Clamp. repeat case_decide; lia. Qed.

Lemma Clamp_inside (val lo hi : Z) : lo ≤ val ≤ hi → Clamp val lo hi = val.
Proof. intros H. unfold Clamp. repeat case_decide; lia. Qed.

Lemma Clamp_above (val lo hi : Z) : lo ≤ hi → hi < val → Clamp val lo hi = hi.
Proof. intros H1 H2. unfold Clamp. repeat case_decide; lia. Qed.

Lemma quotas_schedule q (s : Store) : quotas (schedule q s) = quotas s.
Proof. done. Qed.

Lemma Quota_SetSize_lookup (q : nat) (n : Z) (s : Store) (qo : Quota) :
  quotas s !! q = Some qo →
  quotas (Quota_SetSize q n s) !! q
  = Some (mkQuota n (used qo) (owners qo) (state qo)).
Proof.
  intros Hq. unfold Quota_SetSize.
  assert (quotas (set_quota q (λ qo, mkQuota n (used qo) (owners qo) (state qo)) s) !! q
          = Some (mkQuota n (used qo) (owners qo) (state qo))) as Hset.
  { unfold set_quota. simpl. rewrite list_lookup_alter_eq, Hq. done. }
  by destruct (over_limit _ _).
Qed.

Lemma NoteUsageChanged_lookup (q : nat) (delta : Z) (s : Store) (qo : Quota) :
  quotas s !! q = Some qo →
  quotas (NoteUsageChanged q delta s) !! q
  = Some (mkQuota (size_limit qo) (used qo + delta) (owners qo) (state qo)).
Proof.
  intros Hq. unfold NoteUsageChanged.
  assert (quotas (set_quota q (λ qo, mkQuota (size_limit qo) (used qo + delta)
                                             (owners qo) (state qo)) s) !! q
          = Some (mkQuota (size_limit qo) (used qo + delta) (owners qo) (state qo)))
    as Hset.
  { unfold set_quota. simpl. by rewrite list_lookup_alter_eq, Hq. }
  by destruct (_ && _).
Qed.

Lemma attribute_lookup (o : nat) (delta : Z) (s : Store) (ow : Owner) (qo : Quota) :
  owners_ s !! o = Some ow →
  quotas s !! bound (allocator ow) = Some qo →
  quotas (attribute o delta s) !! bound (allocator ow)
  = Some (mkQuota (size_limit qo) (used qo + delta) (owners qo) (state qo))
  ∧ owners_ (attribute o delta s) !! o = Some (add_attributed delta ow).
Proof.
  intros Ho Hq. unfold attribute. rewrite Ho. split.
  - by apply NoteUsageChanged_lookup.
  - unfold NoteUsageChanged.
    assert (∀ s', owners_ (set_quota (bound (allocator ow))
                   (λ qo, mkQuota (size_limit qo) (used qo + delta)
                                  (owners qo) (state qo)) s') = owners_ s') as Hsame
      by done.
    destruct (_ && _); simpl; by rewrite list_lookup_alter_eq, Ho.
Qed.

(** C3, as amended: a CreateAllocation with [min ≤ max] and
    [max ≤ max_allowed_size] on a live allocator is not rejected, and the
    reservation succeeds whatever the usage of the quota: [MakeReservation]
    grants a size between [min] and [max], exactly [min] when the quota has
    no headroom left ([used ≥ size_limit], so also when it is over budget),
    and the usage of the quota and of the allocator grow by the granted
    size.  The reservation is emplaced under the allocation id: recorded
    when the id is free. *)
Theorem CreateAllocation_valid_request_reserves
    (st : SpecFuzzer) (q a r min max : Z) (o : nat) (ow : Owner) (qo : Quota) :
  min ≤ max →
  max ≤ cap →
  memory_allocators_ st !! a = Some o →
  owners_ (lib st) !! o = Some ow →
  quotas (lib st) !! bound (allocator ow) = Some qo →
  let st' := RunAction Flush (mkAction q a r (kCreateAllocation min max)) st in
  ∃ (res : Reservation) (s : Store),
    Allocator_MakeReservation o (mkMemoryRequest min max) (lib st) = (res, s)
    ∧ st' = allocations_emplace (Lib := SpecLib cap) r res
              (set_lib (Lib := SpecLib cap) s st)
    ∧ min ≤ granted res ≤ max
    ∧ (size_limit qo ≤ used qo → granted res = min)
    ∧ (used <$> quotas s !! bound (allocator ow)) = Some (used qo + granted res)
    ∧ ((attributed ∘ allocator) <$> owners_ s !! o)
      = Some (attributed (allocator ow) + granted res)
    ∧ (allocations_ st !! r = None →
       allocations_ st' !! r = Some res ∧ lib st' = s).
Proof.
  intros Hle Hcap Ha Ho Hq st'. subst st'.
  rewrite (CreateAllocation_valid_request_calls (Lib := SpecLib cap) Flush
             st q a r min max o Hle Hcap Ha).
  unfold SpecLib in *. simpl in *.
  set (res := mkReservation o (Clamp (min + headroom o (lib st)) min max)).
  set (s := attribute o (granted res) (lib st)).
  exists res, s. 
  destruct (attribute_lookup o (granted res) (lib st) ow qo Ho Hq) as [Hq' Ho'].
  pose proof (Clamp_bounds (min + headroom o (lib st)) min max Hle) as Hb.
  split_and!.
  - done.
  - done.
  - simpl. lia.
  - simpl. lia.
  - intros Hover. simpl. unfold headroom. rewrite Ho, Hq.
    rewrite Z.max_l by lia. rewrite Clamp_inside; lia.
  - fold s in Hq'. by rewrite Hq'.
  - fold s in Ho'. by rewrite Ho'.
  - intros Hr. unfold allocations_emplace, set_lib. simpl. rewrite Hr. simpl.
    split; [apply lookup_insert_eq | done].
Qed.

(** C5: the reservation a CreateAllocation records was granted
    [clamp(min, max, min + headroom)] by the allocator it names, and its
    granted size is between [min] and [max] and at most the per-request
    cap. *)
Theorem Reservation_granted_within_bounds
    (st : SpecFuzzer) (q a r min max : Z) (res : Reservation) :
  allocations_ st !! r = None →
  allocations_ (RunAction Flush (mkAction q a r (kCreateAllocation min max)) st) !! r
    = Some res →
  min ≤ granted res ≤ max
  ∧ granted res ≤ cap
  ∧ ∃ o : nat, memory_allocators_ st !! a = Some o
               ∧ granted res = Clamp (min + headroom o (lib st)) min max.
Proof.
  intros Hr. unfold RunAction. unfold SpecLib in *. simpl in *.
  destruct (decide (min > max)) as [|Hle]; [by rewrite Hr|].
  destruct (decide (max > cap)) as [|Hcap]; [by rewrite Hr|].
  unfold WithAllocator. destruct (memory_allocators_ st !! a) as [o|] eqn:Ha;
    [|by rewrite Hr].
  unfold allocations_emplace, set_lib. simpl. rewrite Hr. simpl.
  rewrite lookup_insert_eq. intros [= <-]. simpl.
  pose proof (Clamp_bounds (min + headroom o (lib st)) min max) as Hb.
  split_and!; [lia | lia | lia | by exists o].
Qed.

(** C7, as amended: SetQuotaSize(n) on a live quota leaves its size_limit
    at [n] clamped to the range from 0 to SSIZE_MAX: at [n] itself when [n]
    is at most SSIZE_MAX, and at SSIZE_MAX when [n] is larger. *)
Theorem SetQuotaSize_sets_clamped_limit
    (st : SpecFuzzer) (k a r n : Z) (q : nat) (qo : Quota) :
  0 ≤ n ≤ UINT64_MAX →
  memory_quotas_ st !! k = Some q →
  quotas (lib st) !! q = Some qo →
  let st' := RunAction Flush (mkAction k a r (kSetQuotaSize n)) st in
  ∃ qo' : Quota,
    quotas (lib st') !! q = Some qo'
    ∧ size_limit qo' = Clamp n 0 SSIZE_MAX
    ∧ (n ≤ SSIZE_MAX → size_limit qo' = n)
    ∧ (SSIZE_MAX < n → size_limit qo' = SSIZE_MAX).
Proof.
  intros Hn Hk Hq. unfold RunAction, WithQuota. simpl in *.
  rewrite Hk. unfold with_lib. simpl.
  eexists. split; [by apply Quota_SetSize_lookup|]. simpl.
  split_and!; [done | |].
  - intros. apply Clamp_inside. lia.
  - intros. apply Clamp_above; [by compute | done].
Qed.

(** The scheduled branch of kPostReclaimer stores the closure as the
    reclaimer of its pass, in place of the one registered before. *)
Lemma PostReclaimer_scheduled_stored
    (st : SpecFuzzer) (q a r : Z) pass msg (o : nat) (ow : Owner) :
  memory_allocators_ st !! a = Some o →
  owners_ (lib st) !! o = Some ow →
  let cfg := mkReclaimer false pass msg in
  let st' := RunAction Flush (mkAction q a r (kPostReclaimer cfg)) st in
  ∃ ow' : Owner,
    owners_ (lib st') !! o = Some ow'
    ∧ reclaimers ow' (MapReclamationPass pass) = Some (ScheduledReclaimer cfg)
    ∧ ∀ T, T ≠ MapReclamationPass pass → reclaimers ow' T = reclaimers ow T.
Proof.
  intros Ha Ho. simpl.
  rewrite (PostReclaimer_scheduled_posts (Lib := SpecLib cap) _ _ _ _ _ _ _ o)
    by done.
  unfold with_lib; simpl. unfold Owner_PostReclaimer, set_owner; simpl.
  rewrite list_lookup_alter_eq, Ho. simpl. eexists. split; [done|]. simpl. split.
  - apply fn_lookup_insert.
  - intros T HT. by apply fn_lookup_insert_ne.
Qed.

End spec_lib_facts.

(** * The fuzzer theorems on concrete runs *)

Section fuzzer_runs.
Import proto fuzzer memory_quota.
Abbreviation Fuzzer1G := (@Fuzzer (SpecLib cap_1G)).
Abbreviation RunAction1G := (@RunAction (SpecLib cap_1G) id).
Abbreviation RunMsg1G := (@RunMsg (SpecLib cap_1G) id).

Example over_budget_fuzzer_usage :
  (λ qo, (size_limit qo, used qo)) <$> quotas (lib over_budget_fuzzer) !! 0%nat
  = Some (100, 120)
  ∧ scheduled (lib over_budget_fuzzer) = [0%nat].
Proof. split; reflexivity. Qed.

Lemma CreateAllocation_invalid_request_rejected_witness :
  (50 > 10 ∨ 10 > cap_1G)
  ∧ RunAction1G (mkAction 0 0 0 (kCreateAllocation 50 10)) ready_fuzzer
    = ready_fuzzer.
Proof.
  split; [left; lia|].
  apply (CreateAllocation_invalid_request_rejected (Lib := SpecLib cap_1G)
           id ready_fuzzer 0 0 0 50 10).
  left; lia.
Defined.

(** C2, at the input [post_reclaimer {synchronous: true, pass: BENIGN}] for
    the live allocator 0: the fuzzer is left as it was, and the owner has
    no Benign reclaimer; the same action with [synchronous: false] stores
    its closure as the Benign reclaimer. *)
Theorem PostReclaimer_synchronous_not_stored :
  let sync := mkReclaimer true BENIGN [] in
  let sched := mkReclaimer false BENIGN [] in
  let st1 := RunAction1G (mkAction 0 0 0 (kPostReclaimer sync)) ready_fuzzer in
  let st2 := RunAction1G (mkAction 0 0 0 (kPostReclaimer sched)) ready_fuzzer in
  memory_allocators_ ready_fuzzer !! 0 = Some 0%nat
  ∧ st1 = ready_fuzzer
  ∧ (λ ow, reclaimers ow kBenign) <$> owners_ (lib st1) !! 0%nat = Some None
  ∧ (λ ow, reclaimers ow kBenign) <$> owners_ (lib st2) !! 0%nat
    = Some (Some (ScheduledReclaimer sched)).
Proof. split_and!; reflexivity. Qed.

(** C3, as stated, fails: the request [min = 0], [max = cap + 1] has
    [min ≤ max] and [min] within the cap, names the live allocator 0 and
    the free allocation id 0, and no reservation is made. *)
Lemma CreateAllocation_max_above_cap_rejected :
  let min := 0 in
  let max := cap_1G + 1 in
  let st' := RunAction1G (mkAction 0 0 0 (kCreateAllocation min max)) ready_fuzzer in
  min ≤ max
  ∧ min ≤ cap_1G
  ∧ memory_allocators_ ready_fuzzer !! 0 = Some 0%nat
  ∧ allocations_ ready_fuzzer !! 0 = None
  ∧ allocations_ st' !! 0 = None
  ∧ st' = ready_fuzzer.
Proof. split_and!; first [reflexivity | by compute]. Qed.

Lemma CreateAllocation_valid_request_reserves_witness :
  let st := over_budget_fuzzer in
  let st' := RunAction1G (mkAction 0 0 2 (kCreateAllocation 10 60)) st in
  let ow := mkOwner (mkAllocator 0 120) (λ _, None) in
  let qo := mkQuota 100 120 ({[0%nat]} ∪ ∅) reclamation.Normal in
  10 ≤ 60
  ∧ 60 ≤ cap_1G
  ∧ memory_allocators_ st !! 0 = Some 0%nat
  ∧ owners_ (lib st) !! 0%nat = Some ow
  ∧ quotas (lib st) !! bound (allocator ow) = Some qo
  ∧ ∃ (res : Reservation) (s : Store),
      Allocator_MakeReservation 0%nat (mkMemoryRequest 10 60) (lib st) = (res, s)
      ∧ st' = allocations_emplace (Lib := SpecLib cap_1G) 2 res
                (set_lib (Lib := SpecLib cap_1G) s st)
      ∧ 10 ≤ granted res ≤ 60
      ∧ (size_limit qo ≤ used qo → granted res = 10)
      ∧ (used <$> quotas s !! bound (allocator ow)) = Some (used qo + granted res)
      ∧ ((attributed ∘ allocator) <$> owners_ s !! 0%nat)
        = Some (attributed (allocator ow) + granted res)
      ∧ (allocations_ st !! 2 = None →
         allocations_ st' !! 2 = Some res ∧ lib st' = s).
Proof.
  intros st st' ow qo.
  assert (10 ≤ 60) as H1 by lia.
  assert (60 ≤ cap_1G) as H2 by (by compute).
  assert (memory_allocators_ st !! 0 = Some 0%nat) as H3 by reflexivity.
  assert (owners_ (lib st) !! 0%nat = Some ow) as H4 by reflexivity.
  assert (quotas (lib st) !! bound (allocator ow) = Some qo) as H5 by reflexivity.
  split_and!; [done..|].
  exact (CreateAllocation_valid_request_reserves cap_1G id st 0 0 2 10 60 0%nat
           ow qo H1 H2 H3 H4 H5).
Defined.

(** The same request on the quota that is over budget (limit 100, used
    120): 10 bytes are granted and recorded, and the usage is 130. *)
Example over_budget_reservation :
  let st' := RunAction1G (mkAction 0 0 2 (kCreateAllocation 10 60)) over_budget_fuzzer in
  allocations_ st' !! 2 = Some (mkReservation 0 10)
  ∧ (λ qo, (size_limit qo, used qo)) <$> quotas (lib st') !! 0%nat = Some (100, 130).
Proof. split; reflexivity. Qed.
Lemma unknown_handle_is_noop_witness :
  unknown_handle (mkAction 7 0 0 (kSetQuotaSize 100)) ready_fuzzer
  ∧ RunAction1G (mkAction 7 0 0 (kSetQuotaSize 100)) ready_fuzzer = ready_fuzzer.
Proof.
  split; [reflexivity|].
  apply (unknown_handle_is_noop (Lib := SpecLib cap_1G) id
           (mkAction 7 0 0 (kSetQuotaSize 100)) ready_fuzzer).
  reflexivity.
Defined.

Lemma Reservation_granted_within_bounds_witness :
  let st := ready_fuzzer in
  let st' := RunAction1G (mkAction 0 0 0 (kCreateAllocation 10 50)) st in
  let res := mkReservation 0 50 in
  allocations_ st !! 0 = None
  ∧ allocations_ st' !! 0 = Some res
  ∧ 10 ≤ granted res ≤ 50
  ∧ granted res ≤ cap_1G
  ∧ ∃ o : nat, memory_allocators_ st !! 0 = Some o
               ∧ granted res = Clamp (10 + headroom o (lib st)) 10 50.
Proof.
  intros st st' res.
  assert (allocations_ st !! 0 = None) as H1 by reflexivity.
  assert (allocations_ st' !! 0 = Some res) as H2 by reflexivity.
  split; [done|]. split; [done|].
  exact (Reservation_granted_within_bounds cap_1G id st 0 0 0 10 50 res H1 H2).
Defined.

(** C7, as stated, fails: [n = 2^63] is a value of the uint64 field, and
    SetQuotaSize(n) on the live quota 0 leaves its size_limit at
    [2^63 - 1]. *)
Lemma SetQuotaSize_above_SSIZE_MAX :
  let n := 2 ^ 63 in
  let st' := RunAction1G (mkAction 0 0 0 (kSetQuotaSize n)) ready_fuzzer in
  0 ≤ n ≤ UINT64_MAX
  ∧ memory_quotas_ ready_fuzzer !! 0 = Some 0%nat
  ∧ size_limit <$> quotas (lib st') !! 0%nat = Some (2 ^ 63 - 1)
  ∧ 2 ^ 63 - 1 ≠ n.
Proof. split_and!; first [reflexivity | by compute]. Qed.

Lemma SetQuotaSize_sets_clamped_limit_witness :
  let st := ready_fuzzer in
  let st' := RunAction1G (mkAction 0 0 0 (kSetQuotaSize 100)) st in
  let qo := mkQuota unlimited 0 ({[0%nat]} ∪ ∅) reclamation.Normal in
  0 ≤ 100 ≤ UINT64_MAX
  ∧ memory_quotas_ st !! 0 = Some 0%nat
  ∧ quotas (lib st) !! 0%nat = Some qo
  ∧ ∃ qo' : Quota,
      quotas (lib st') !! 0%nat = Some qo'
      ∧ size_limit qo' = Clamp 100 0 SSIZE_MAX
      ∧ (100 ≤ SSIZE_MAX → size_limit qo' = 100)
      ∧ (SSIZE_MAX < 100 → size_limit qo' = SSIZE_MAX).
Proof.
  intros st st' qo.
  assert (0 ≤ 100 ≤ UINT64_MAX) as H1 by (by compute).
  assert (memory_quotas_ st !! 0 = Some 0%nat) as H2 by reflexivity.
  assert (quotas (lib st) !! 0%nat = Some qo) as H3 by reflexivity.
  split_and!; [done..|].
  exact (SetQuotaSize_sets_clamped_limit cap_1G id st 0 0 0 100 0%nat qo H1 H2 H3).
Defined.

End fuzzer_runs.

(** * Properties of the reclamation pipeline *)

Section reclamation_facts.
Import reclamation.
#[local] Open Scope nat_scope.

Lemma foldl_snoc {A B} (f : A → B → A) (a : A) (l : list B) (x : B) :
  foldl f a (l ++ [x]) = f (foldl f a l) x.
Proof. revert a. induction l as [|y l IH]; intros a; simpl; [done|apply IH]. Qed.



























Example demo_exec :
  exec demo_steps initial
  = mkPipeline Exhausted []
      [Attempted kBenign; Dispatched kBenign 2; Dispatched kBenign 1;
       Completed kBenign 2; Completed kBenign 1;
       Attempted kIdle;
       Attempted kDestructive; Dispatched kDestructive 3;
       Completed kDestructive 3].
Proof. reflexivity. Qed.

End reclamation_facts.

(** * The theorems on concrete inputs *)

Section concrete_runs.
Import chunked_vector reclamation.
#[local] Open Scope nat_scope.

(** The range constructor builds vectors a program can have. *)
Lemma from_range_reachable {T : Type} (k : nat) (l : list T) (v : ChunkedVector) :
  from_range k l = Done v → reachable k v.
Proof.
  revert v. induction l as [|x l IH] using rev_ind; intros v.
  - intros [= <-]. apply reachable_empty.
  - unfold from_range. rewrite foldl_snoc. fold (from_range k l).
    destruct (from_range k l) as [v0| |]; [|done..]. simpl.
    intros Hgo. by apply (reachable_EmplaceBack k v0 x v); [apply IH|].
Qed.

Example demo_vec_from_range : from_range 2 [1; 2; 3] = Done demo_vec.
Proof. reflexivity. Qed.

Lemma EmplaceBack_PopBack_witness :
  0 < 2 ∧ reachable 2 demo_vec
  ∧ ∃ v1 v2 l,
      EmplaceBack 2 7 demo_vec = Done v1
      ∧ PopBack v1 = Done (7, v2)
      ∧ elements 2 demo_vec = Done l
      ∧ elements 2 v1 = Done (l ++ [7])
      ∧ elements 2 v2 = Done l
      ∧ size v2 = size demo_vec
      ∧ size demo_vec = Done (size_t_wrap (Z.of_nat (length l))).
Proof.
  assert (reachable 2 demo_vec) as Hr
    by (apply (from_range_reachable 2 [1; 2; 3]); reflexivity).
  split; [lia|]. split; [exact Hr|].
  apply (EmplaceBack_PopBack 2 ltac:(lia) demo_vec 7 Hr).
Defined.

Example EmplaceBack_PopBack_demo :
  ∃ v1, EmplaceBack 2 7 demo_vec = Done v1
        ∧ elements 2 v1 = Done [1; 2; 3; 7]
        ∧ (p ← PopBack v1; elements 2 p.2) = Done [1; 2; 3].
Proof. eexists. split_and!; reflexivity. Qed.

Lemma PopBack_nonempty_or_assertion_witness :
  0 < 2 ∧ reachable 2 demo_vec
  ∧ ∃ l n,
      elements 2 demo_vec = Done l
      ∧ size demo_vec = Done n
      ∧ ((0 < n)%Z →
         ∃ l' x v', l = l' ++ [x] ∧ PopBack demo_vec = Done (x, v')
                    ∧ elements 2 v' = Done l'
                    ∧ reachable 2 v')
      ∧ (l = [] → n = 0%Z ∧ PopBack demo_vec = AssertionFailed).
Proof.
  assert (reachable 2 demo_vec) as Hr
    by (apply (from_range_reachable 2 [1; 2; 3]); reflexivity).
  split; [lia|]. split; [exact Hr|].
  apply (PopBack_nonempty_or_assertion 2 ltac:(lia) demo_vec Hr).
Defined.

(** [PopBack] on the vector just constructed, and on a vector emptied by
    [PopBack] or by [Clear]: the first assertion fires, or the second. *)
Example PopBack_empty_demo :
  PopBack (@empty nat) = AssertionFailed
  ∧ (v ← from_range 2 [1]; p ← PopBack v; PopBack p.2) = AssertionFailed
  ∧ (v ← Clear 2 demo_vec; PopBack v) = AssertionFailed.
Proof. split_and!; reflexivity. Qed.


End concrete_runs.

(** * Further properties of chunked_vector.h *)

Section chunked_vector_more.
Import chunked_vector.
#[local] Open Scope nat_scope.
Context {T : Type}.
Variable kChunkSize : nat.
Hypothesis kChunkSize_pos : 0 < kChunkSize.
Implicit Types (v : @ChunkedVector T) (c : @Chunk T) (h : list (@Chunk T)).
Implicit Types (x : T) (l : list T).

Lemma from_range_snoc l x :
  from_range kChunkSize (l ++ [x])
  = v ← from_range kChunkSize l; EmplaceBack kChunkSize x v.
Proof. unfold from_range. by rewrite foldl_snoc. Qed.

Lemma from_range_wf l :
  ∃ v, from_range kChunkSize l = Done v ∧ wf kChunkSize v ∧ contents v = l.
Proof.
  induction l as [|x l (v0 & Hgo & Hwf & Hc)] using rev_ind.
  - exists empty. split_and!; [done | apply empty_wf | done].
  - destruct (EmplaceBack_wf kChunkSize kChunkSize_pos x v0 Hwf)
      as (v & Hgo' & Hwf' & Hc').
    exists v. rewrite from_range_snoc, Hgo. simpl. by rewrite Hc', Hc.
Qed.

(** *** The number of chunks *)

Lemma PopBack_chunks v x v' :
  PopBack v = Done (x, v') → length (arena_ v') = length (arena_ v).
Proof.
  unfold PopBack. destruct (append_ v) as [a|]; [|done].
  destruct (deref (arena_ v) a) as [c| |]; simpl; [|done..].
  destruct (if decide (count c = 0) then _ else _) as [a1| |]; simpl; [|done..].
  destruct (deref (arena_ v) a1) as [c1| |]; simpl; [|done..].
  destruct (count c1) as [|last]; [done|].
  destruct (data c1 !! last) as [[y|]|]; [|done..].
  intros [= _ <-]. simpl. by rewrite length_insert.
Qed.

Lemma Clear_loop_chunks fuel h p h' :
  Clear_loop kChunkSize fuel h p = Done h' → length h' = length h.
Proof.
  revert h p. induction fuel as [|fuel IH]; intros h [a|]; simpl;
    try (by intros [= <-]).
  all: destruct (deref h a) as [c| |]; simpl; [|done..].
  all: case_decide; [by intros [= <-]|]; try done.
  case_decide; [|done]. intros ->%IH. by rewrite length_insert.
Qed.

Lemma Clear_chunks v v' :
  Clear kChunkSize v = Done v' → length (arena_ v') = length (arena_ v).
Proof.
  unfold Clear.
  destruct (Clear_loop _ _ _ _) as [h'| |] eqn:E; simpl; [|done..].
  intros [= <-]. simpl. by apply Clear_loop_chunks in E.
Qed.

Lemma EmplaceBack_chunks v x v' :
  EmplaceBack kChunkSize x v = Done v' →
  length (arena_ v')
  = if needs_chunk kChunkSize v then S (length (arena_ v)) else length (arena_ v).
Proof.
  unfold EmplaceBack, AppendSlot, needs_chunk.
  destruct (append_ v) as [a|] eqn:Ha.
  - destruct (arena_ v !! a) as [c|] eqn:Hc;
      [rewrite (deref_Some _ _ _ Hc)|unfold deref; by rewrite Hc].
    simpl. destruct (decide (count c = kChunkSize)) as [Hfull|Hfree].
    + destruct (next c) as [n|] eqn:Hn; simpl.
      * unfold deref. destruct (arena_ v !! n) as [c2|] eqn:Hc2; simpl; [|done].
        rewrite list_lookup_insert_eq by (by eapply lookup_lt_Some). simpl.
        case_decide; [|done]. intros [= <-]. simpl.
        rewrite !length_insert. rewrite bool_decide_eq_false_2; [done|].
        by intros [_ ?].
      * unfold deref.
        rewrite list_lookup_insert_ne
          by (apply lookup_lt_Some in Hc; lia).
        rewrite list_lookup_middle by done. simpl.
        rewrite list_lookup_insert_eq
          by (rewrite length_insert, length_app; simpl; lia). simpl.
        case_decide; [|done]. intros [= <-]. simpl.
        rewrite !length_insert, length_app. simpl.
        rewrite bool_decide_eq_true_2 by done. lia.
    + simpl. rewrite Ha. simpl. rewrite (deref_Some _ _ _ Hc). simpl.
      unfold deref.
      rewrite list_lookup_insert_eq by (by eapply lookup_lt_Some). simpl.
      case_decide; [|done]. intros [= <-]. simpl.
      rewrite !length_insert. rewrite bool_decide_eq_false_2; [done|].
      by intros [? _].
  - destruct (first_ v); simpl; [done|].
    unfold deref. simpl.
    rewrite list_lookup_middle by done. simpl.
    rewrite list_lookup_insert_eq by (rewrite length_app; simpl; lia). simpl.
    case_decide; [|done]. intros [= <-]. simpl.
    rewrite !length_insert, length_app. simpl. lia.
Qed.

Lemma bind_length_const {A B} (f : A → list B) (n : nat) (xs : list A) :
  (∀ a, a ∈ xs → length (f a) = n) → length (xs ≫= f) = length xs * n.
Proof.
  induction xs as [|a xs IH]; intros H; [done|].
  rewrite bind_cons, length_app, (H a), IH; [simpl; lia| |by left].
  intros y Hy. apply H. by right.
Qed.

Lemma contents_length_wf v i c :
  wf kChunkSize v → append_ v = Some i → arena_ v !! i = Some c →
  length (contents v) = i * kChunkSize + count c.
Proof.
  intros Hwf Hi Hc. unfold contents.
  rewrite (bind_lookup_split _ _ _ _ Hc).
  rewrite (wf_tail_empty kChunkSize kChunkSize_pos v i Hwf Hi).
  rewrite app_nil_r, length_app.
  rewrite (constructed_length kChunkSize kChunkSize_pos _ _ _
             (wf_chunk kChunkSize _ _ _ Hwf Hc)).
  rewrite (bind_length_const _ kChunkSize).
  - rewrite length_take. pose proof (lookup_lt_Some _ _ _ Hc). lia.
  - intros c0 [j Hj]%list_elem_of_lookup.
    apply lookup_take_Some in Hj as [Hj Hji].
    rewrite (constructed_length kChunkSize kChunkSize_pos _ _ _
               (wf_chunk kChunkSize _ _ _ Hwf Hj)).
    destruct Hwf as (_ & _ & Ha). rewrite Hi in Ha. destruct Ha as (_ & Ha).
    by apply (Ha _ _ Hj).
Qed.

Lemma needs_chunk_wf v :
  wf kChunkSize v →
  needs_chunk kChunkSize v
  = bool_decide (length (contents v) = length (arena_ v) * kChunkSize).
Proof.
  intros Hwf. unfold needs_chunk. destruct (append_ v) as [i|] eqn:Hi.
  - pose proof Hwf as (Hch & _ & Ha). rewrite Hi in Ha. destruct Ha as (Hil & _).
    destruct (lookup_lt_is_Some_2 _ i Hil) as [c Hc]. rewrite Hc.
    rewrite (contents_length_wf v i c) by done.
    destruct (Hch _ _ Hc) as (Hnx & _ & Hle & _).
    apply bool_decide_ext. rewrite Hnx. unfold link. split.
    + intros [-> Hnone]. case_decide; [done|]. nia.
    + intros Heq.
      assert (i = length (arena_ v) - 1 ∧ count c = kChunkSize) as [-> ->] by nia.
      split; [done|]. case_decide; [lia|done].
  - destruct Hwf as (_ & _ & Ha). rewrite Hi in Ha. unfold contents.
    by rewrite Ha.
Qed.


Lemma contents_bound v :
  wf kChunkSize v → length (contents v) ≤ length (arena_ v) * kChunkSize.
Proof.
  intros Hwf. unfold contents.
  rewrite (contents_length kChunkSize kChunkSize_pos) by (by destruct Hwf).
  eapply sum_counts_bound; [done|].
  intros m c Hm. exists m. by apply (wf_chunk kChunkSize v).
Qed.

Lemma start_empty v :
  wf kChunkSize v → contents v = [] → start (arena_ v) 0 = end_.
Proof.
  intros Hwf Hnil. unfold start.
  destruct (arena_ v !! 0) as [c|] eqn:Hc; [|done].
  case_decide as Hz; [done|]. exfalso.
  pose proof (constructed_length kChunkSize kChunkSize_pos _ _ _
                (wf_chunk kChunkSize _ _ _ Hwf Hc)) as Hlen.
  unfold contents in Hnil. rewrite (bind_lookup_split _ _ _ _ Hc) in Hnil.
  simpl in Hnil. destruct (constructed c); [simpl in Hlen; lia|done].
Qed.

Lemma foldl_EmplaceBack_fail (o : outcome (@ChunkedVector T)) l :
  (∀ v, o ≠ Done v) →
  foldl (λ o x, v ← o; EmplaceBack kChunkSize x v) o l = o.
Proof.
  revert o. induction l as [|x l IH]; intros o Ho; [done|]. simpl.
  destruct o as [v| |]; [by destruct (Ho v)|..]; simpl; by apply IH.
Qed.

(** The copy loop applies [EmplaceBack] to the elements of the traversal,
    in order. *)
Lemma copy_loop_elements fuel (other : @ChunkedVector T) it l v :
  elements_loop fuel other it = Done l →
  copy_loop kChunkSize fuel other it v
  = foldl (λ o x, v ← o; EmplaceBack kChunkSize x v) (Done v) l.
Proof.
  revert it l v. induction fuel as [|fuel IH]; intros it l v; simpl.
  all: case_decide; [by intros [= <-]|].
  - done.
  - destruct (star other it) as [x| |]; simpl; [|done..].
    destruct (incr other it) as [it'| |]; simpl; [|done..].
    destruct (elements_loop fuel other it') as [xs| |] eqn:Hxs; simpl; [|done..].
    intros [= <-]. simpl.
    destruct (EmplaceBack kChunkSize x v) as [v'| |] eqn:Hgo; simpl.
    + by apply IH.
    + by rewrite foldl_EmplaceBack_fail.
    + by rewrite foldl_EmplaceBack_fail.
Qed.

Lemma copy_from_range (other : @ChunkedVector T) l :
  elements kChunkSize other = Done l →
  copy kChunkSize other = from_range kChunkSize l.
Proof.
  unfold elements, copy, from_range.
  destruct (begin other) as [it| |]; simpl; [|done..].
  apply copy_loop_elements.
Qed.

Lemma wf_next_fmap v v' :
  wf kChunkSize v → wf kChunkSize v' → length (arena_ v') = length (arena_ v) →
  next <$> arena_ v' = next <$> arena_ v.
Proof.
  intros Hwf Hwf' Hlen. apply list_eq. intros j. rewrite !list_lookup_fmap.
  destruct (arena_ v' !! j) as [c'|] eqn:Hc'; destruct (arena_ v !! j) as [c|] eqn:Hc;
    simpl.
  - by rewrite (wf_next kChunkSize _ _ _ Hwf' Hc'), (wf_next kChunkSize _ _ _ Hwf Hc), Hlen.
  - apply lookup_lt_Some in Hc'. apply lookup_ge_None in Hc. lia.
  - apply lookup_lt_Some in Hc. apply lookup_ge_None in Hc'. lia.
  - done.
Qed.

Lemma wf_first v v' :
  wf kChunkSize v → wf kChunkSize v' → length (arena_ v') = length (arena_ v) →
  first_ v' = first_ v.
Proof. intros (_ & Hf & _) (_ & Hf' & _) Hlen. by rewrite Hf, Hf', Hlen. Qed.

Lemma contents_nil_counts v :
  wf kChunkSize v →
  contents v = [] ↔ ∀ j c, arena_ v !! j = Some c → count c = 0.
Proof.
  intros Hwf. split.
  - intros Hnil j c Hc.
    pose proof (constructed_length kChunkSize kChunkSize_pos _ _ _
                  (wf_chunk kChunkSize _ _ _ Hwf Hc)) as Hlen.
    unfold contents in Hnil. rewrite (bind_lookup_split _ _ _ _ Hc) in Hnil.
    apply app_eq_nil in Hnil as [_ [Hnil _]%app_eq_nil].
    by rewrite Hnil in Hlen.
  - intros Hz. apply bind_all_nil. intros c [j Hj]%list_elem_of_lookup.
    apply constructed_empty. by apply (Hz j).
Qed.

Lemma start_end_counts v :
  wf kChunkSize v →
  start (arena_ v) 0 = end_ ↔ ∀ j c, arena_ v !! j = Some c → count c = 0.
Proof.
  intros Hwf. split.
  - intros Hend. apply (contents_nil_counts v Hwf).
    by apply (rest_start_end kChunkSize kChunkSize_pos v 0).
  - intros Hz. apply (start_empty v Hwf).
    by apply contents_nil_counts.
Qed.

(** X1: [Clear] on every vector a program can have returns and leaves a
    vector without elements: its traversal is empty, [begin()] is [end()],
    [size()] is 0, every chunk has count 0 and [PopBack] stops at a failed
    assertion.  The chunks stay linked to the vector: [first_] is as
    before, [append_] is back at [first_], and every chunk is there with
    the [next] it had. *)
Theorem Clear_empties v :
  reachable kChunkSize v →
  ∃ v', Clear kChunkSize v = Done v'
        ∧ reachable kChunkSize v'
        ∧ elements kChunkSize v' = Done []
        ∧ begin v' = Done end_
        ∧ size v' = Done 0%Z
        ∧ PopBack v' = AssertionFailed
        ∧ length (arena_ v') = length (arena_ v)
        ∧ first_ v' = first_ v
        ∧ append_ v' = first_ v
        ∧ next <$> arena_ v' = next <$> arena_ v
        ∧ ∀ j c, arena_ v' !! j = Some c → count c = 0.
Proof.
  intros Hr. pose proof (reachable_wf kChunkSize kChunkSize_pos v Hr) as Hwf.
  destruct (Clear_wf kChunkSize kChunkSize_pos v Hwf) as (v' & Hgo & Hwf' & Hnil).
  pose proof (Clear_chunks v v' Hgo) as Hlen.
  exists v'. split_and!.
  - done.
  - by apply (reachable_Clear kChunkSize v v').
  - by rewrite (elements_wf kChunkSize kChunkSize_pos), Hnil.
  - by rewrite (begin_wf kChunkSize kChunkSize_pos), start_empty.
  - by rewrite (size_wf kChunkSize kChunkSize_pos), Hnil.
  - destruct (PopBack_wf kChunkSize kChunkSize_pos v' Hwf')
      as [(_ & Hpop)|(l & x & ? & Hc & _)]; [done|].
    rewrite Hnil in Hc. by destruct l.
  - done.
  - by apply wf_first.
  - rewrite <-(wf_first v v' Hwf Hwf' Hlen). unfold Clear in Hgo.
    destruct (Clear_loop _ _ _ _); simpl in Hgo; [|done..]. by injection Hgo as <-.
  - by apply wf_next_fmap.
  - by apply contents_nil_counts.
Qed.

(** X2: the range constructor returns a vector whose traversal yields the
    elements of the range, in order. *)
Theorem from_range_elements l :
  ∃ v, from_range kChunkSize l = Done v
       ∧ reachable kChunkSize v
       ∧ elements kChunkSize v = Done l
       ∧ size v = Done (size_t_wrap (Z.of_nat (length l))).
Proof.
  destruct (from_range_wf l) as (v & Hgo & Hwf & Hc). exists v.
  split_and!; [done| | |].
  - by apply (from_range_reachable kChunkSize l).
  - by rewrite (elements_wf kChunkSize kChunkSize_pos), Hc.
  - by rewrite (size_wf kChunkSize kChunkSize_pos), Hc.
Qed.

Lemma from_range_chunks_bounds l v :
  from_range kChunkSize l = Done v →
  length (arena_ v) * kChunkSize < length l + kChunkSize
  ∧ length l ≤ length (arena_ v) * kChunkSize.
Proof.
  revert v. induction l as [|x l IH] using rev_ind; intros v.
  - intros [= <-]. simpl. lia.
  - rewrite from_range_snoc.
    destruct (from_range_wf l) as (v0 & Hgo & Hwf & Hc). rewrite Hgo. simpl.
    intros Hx. destruct (IH v0 Hgo) as [IH1 IH2].
    rewrite (EmplaceBack_chunks _ _ _ Hx), (needs_chunk_wf v0 Hwf), Hc.
    rewrite length_app. simpl. case_bool_decide; nia.
Qed.

(** X3: a vector built by the range constructor from [n] elements has
    taken the least number of chunks that hold them: [m] chunks with
    [(m - 1) * kChunkSize < n ≤ m * kChunkSize]; up to [kChunkSize] elements
    fit in one chunk. *)
Theorem from_range_chunks l v :
  from_range kChunkSize l = Done v →
  length (arena_ v) * kChunkSize < length l + kChunkSize
  ∧ length l ≤ length (arena_ v) * kChunkSize
  ∧ (length l ≤ kChunkSize → length (arena_ v) ≤ 1).
Proof.
  intros [H1 H2]%from_range_chunks_bounds. split_and!; [done..|]. nia.
Qed.

(** X4: [EmplaceBack] takes a new chunk from the arena exactly when every
    slot of the chunks taken so far holds an element, and then one chunk;
    [PopBack] and [Clear] keep the chunks. *)
Theorem chunks_taken_only_when_full v :
  reachable kChunkSize v →
  (∀ x v' l,
     elements kChunkSize v = Done l → EmplaceBack kChunkSize x v = Done v' →
     length (arena_ v')
     = if decide (length l = length (arena_ v) * kChunkSize)
       then S (length (arena_ v)) else length (arena_ v))
  ∧ (∀ x v', PopBack v = Done (x, v') → length (arena_ v') = length (arena_ v))
  ∧ (∀ v', Clear kChunkSize v = Done v' → length (arena_ v') = length (arena_ v)).
Proof.
  intros Hwf%(reachable_wf kChunkSize kChunkSize_pos). split_and!.
  - intros x v' l Hl Hgo.
    rewrite (elements_wf kChunkSize kChunkSize_pos v Hwf) in Hl.
    injection Hl as <-.
    rewrite (EmplaceBack_chunks _ _ _ Hgo), (needs_chunk_wf v Hwf).
    by case_bool_decide; case_decide.
  - apply PopBack_chunks.
  - apply Clear_chunks.
Qed.

(** X5: the copy constructor, on every vector a program can have, returns
    a vector with the same elements in the same order; it is the vector the
    range constructor builds from them, so it has no spare chunk. *)
Theorem copy_elements (other : @ChunkedVector T) :
  reachable kChunkSize other →
  ∃ l v,
    elements kChunkSize other = Done l
    ∧ copy kChunkSize other = Done v
    ∧ from_range kChunkSize l = Done v
    ∧ reachable kChunkSize v
    ∧ elements kChunkSize v = Done l
    ∧ length (arena_ v) ≤ length (arena_ other).
Proof.
  intros Hwf%(reachable_wf kChunkSize kChunkSize_pos).
  pose proof (elements_wf kChunkSize kChunkSize_pos other Hwf) as Hel.
  destruct (from_range_wf (contents other)) as (v & Hgo & Hwf' & Hc).
  exists (contents other), v. split_and!; [done| |done| | |].
  - by rewrite (copy_from_range other _ Hel).
  - by apply (from_range_reachable kChunkSize (contents other)).
  - by rewrite (elements_wf kChunkSize kChunkSize_pos), Hc.
  - destruct (from_range_chunks_bounds _ _ Hgo) as [H1 _].
    pose proof (contents_bound other Hwf). nia.
Qed.

(** X6: on every vector a program can have, [begin()] equals [end()]
    exactly when no chunk holds an element (every count is 0), although
    [begin()] reads the first chunk only.  Then [size()] is 0; and a
    [size()] of 0 gives [begin() = end()] when the slots of the chunks are
    fewer than [2^SIZE_WIDTH], so that the sum cannot wrap.  Otherwise
    [begin()] stands at slot 0 of the first chunk, and can be
    dereferenced. *)
Theorem begin_is_end_iff_empty v :
  reachable kChunkSize v →
  (begin v = Done end_ ↔ ∀ j c, arena_ v !! j = Some c → count c = 0)
  ∧ (begin v = Done end_ → size v = Done 0%Z)
  ∧ (size v = Done 0%Z →
     (Z.of_nat (length (arena_ v) * kChunkSize) < 2 ^ SIZE_WIDTH)%Z →
     begin v = Done end_)
  ∧ (begin v ≠ Done end_ →
     ∃ x, begin v = Done (mkIter (Some 0) 0)
          ∧ star v (mkIter (Some 0) 0) = Done x).
Proof.
  intros Hwf%(reachable_wf kChunkSize kChunkSize_pos).
  rewrite (begin_wf kChunkSize kChunkSize_pos v Hwf).
  rewrite (size_wf kChunkSize kChunkSize_pos v Hwf).
  pose proof (start_end_counts v Hwf) as Hiff.
  split_and!.
  - split.
    + intros [= Hend]. by apply Hiff.
    + intros Hz. f_equal. by apply Hiff.
  - intros [= Hend].
    by rewrite (rest_start_end kChunkSize kChunkSize_pos v 0 Hwf Hend : contents v = []).
  - intros [= Hz] Hcap. f_equal.
    apply (start_empty v Hwf).
    pose proof (contents_bound v Hwf) as Hb.
    unfold size_t_wrap in Hz. rewrite Z.mod_small in Hz by lia.
    destruct (contents v); [done|simpl in Hz; lia].
  - intros Hne. unfold start in *.
    destruct (arena_ v !! 0) as [c|] eqn:Hc; [|done].
    case_decide as Hcount; [done|].
    destruct (constructed_lookup kChunkSize kChunkSize_pos _ _ c 0
                (wf_chunk kChunkSize _ _ _ Hwf Hc)) as (x & Hx & _); [lia|].
    exists x. split; [done|]. unfold star, deref. simpl.
    rewrite Hc. simpl. by rewrite Hx.
Qed.

(** X7: the member functions keep the chunk chain in shape.  [first_] is
    the chunk taken first, or null when none was taken; [first_] and
    [append_] are null together; [append_] points to a chunk of the vector;
    the [next] of a chunk is the chunk taken right after it, and null for
    the chunk taken last, so the chain from [first_] runs through all the
    chunks in the order they were taken; a chunk has [kChunkSize] slots, a
    count of at most [kChunkSize], and a value in each of its first [count]
    slots; the chunks before [append_] in the chain are full, and the
    chunks after it are empty. *)
Theorem reachable_chain_invariant v :
  reachable kChunkSize v →
  first_ v = (if decide (0 < length (arena_ v)) then Some 0 else None)
  ∧ (first_ v = None ↔ append_ v = None)
  ∧ (append_ v = None → arena_ v = [])
  ∧ (∀ i, append_ v = Some i → i < length (arena_ v))
  ∧ ∀ j c, arena_ v !! j = Some c →
      next c = (if decide (S j < length (arena_ v)) then Some (S j) else None)
      ∧ length (data c) = kChunkSize
      ∧ count c ≤ kChunkSize
      ∧ (∀ s, s < count c → ∃ x, data c !! s = Some (Some x))
      ∧ ∀ i, append_ v = Some i →
             (j < i → count c = kChunkSize) ∧ (i < j → count c = 0).
Proof.
  intros (Hch & Hf & Ha)%(reachable_wf kChunkSize kChunkSize_pos). split_and!.
  - done.
  - rewrite Hf. unfold link. destruct (append_ v) as [i|]; [|by rewrite Ha].
    destruct Ha as [Hil _]. case_decide; [done|lia].
  - intros Hnone. by rewrite Hnone in Ha.
  - intros i Hi. rewrite Hi in Ha. by destruct Ha.
  - intros j c Hj. destruct (Hch _ _ Hj) as (Hnx & Hlen & Hle & Hsl).
    split_and!; [done..|].
    intros i Hi. rewrite Hi in Ha. destruct Ha as [_ Ha]. by apply Ha.
Qed.

(** X10: on every vector a program can have, a [PopBack] followed by
    [EmplaceBack] of the value it returned gives back the elements the
    vector had, without taking a chunk from the arena. *)
Theorem PopBack_EmplaceBack v x v1 :
  reachable kChunkSize v →
  PopBack v = Done (x, v1) →
  ∃ v2 l,
    EmplaceBack kChunkSize x v1 = Done v2
    ∧ elements kChunkSize v = Done (l ++ [x])
    ∧ elements kChunkSize v1 = Done l
    ∧ elements kChunkSize v2 = Done (l ++ [x])
    ∧ length (arena_ v2) = length (arena_ v).
Proof.
  intros Hwf%(reachable_wf kChunkSize kChunkSize_pos) Hpop.
  destruct (PopBack_wf kChunkSize kChunkSize_pos v Hwf)
    as [(_ & Hgo)|(l & y & v1' & Hc & Hgo & Hwf1 & Hc1)]; [congruence|].
  rewrite Hgo in Hpop. injection Hpop as -> ->.
  destruct (EmplaceBack_wf kChunkSize kChunkSize_pos x v1 Hwf1)
    as (v2 & Hgo2 & Hwf2 & Hc2).
  exists v2, l. rewrite !(elements_wf kChunkSize kChunkSize_pos) by done.
  rewrite Hc, Hc1, Hc2, Hc1. split_and!; [done..|].
  rewrite (EmplaceBack_chunks _ _ _ Hgo2), (needs_chunk_wf v1 Hwf1), Hc1.
  rewrite (PopBack_chunks _ _ _ Hgo).
  pose proof (contents_bound v Hwf) as Hb. rewrite Hc, length_app in Hb.
  simpl in Hb. rewrite bool_decide_eq_false_2; [done|lia].
Qed.

End chunked_vector_more.

(** * Further properties of memory_quota_fuzzer.cc *)

Section fuzzer_more.
Import proto fuzzer.
Context `{Lib : MemoryQuotaLib}.
Variable Flush : Fuzzer → Fuzzer.

Lemma dom_taken {V} (m : gmap Z V) (k : Z) :
  is_Some (m !! k) → dom m = {[k]} ∪ dom m.
Proof.
  intros H%elem_of_dom. apply set_eq. intros x.
  rewrite elem_of_union, elem_of_singleton.
  split; [by right | by intros [->|?]].
Qed.

Lemma dom_absent {V} (m : gmap Z V) (k : Z) :
  m !! k = None → dom m = dom m ∖ {[k]}.
Proof.
  intros H%not_elem_of_dom. apply set_eq. intros x.
  rewrite elem_of_difference, elem_of_singleton.
  split; [|by intros [? _]]. intros Hx. split; [done|]. by intros ->.
Qed.

(** The ids in use after an action other than FlushExecCtx. *)
Lemma ids_of_RunAction (action : Action) (st : Fuzzer) :
  ¬ is_flush action →
  ids_of (RunAction Flush action st)
  = ids_step max_allowed_size (ids_of st) action.
Proof.
  destruct action as [q a r ty]. unfold is_flush, RunAction, ids_step, ids_of.
  simpl. intros Hnf.
  destruct ty as [| | | | |n| |min max| |cfg|]; simpl; try done.
  - destruct (MemoryQuota_new (lib st)) as [qo s]. unfold quotas_emplace. simpl.
    destruct (memory_quotas_ st !! q) eqn:E; simpl.
    + f_equal. by apply dom_taken.
    + f_equal. apply dom_insert_L.
  - unfold quotas_erase. destruct (memory_quotas_ st !! q) eqn:E; simpl.
    + f_equal. apply dom_delete_L.
    + f_equal. by apply dom_absent.
  - unfold WithQuota. destruct (memory_quotas_ st !! q) eqn:E.
    + rewrite decide_True by (by apply elem_of_dom).
      destruct (CreateMemoryOwner m (lib st)) as [o s].
      unfold allocators_emplace. simpl.
      destruct (memory_allocators_ st !! a) eqn:E'; simpl.
      * f_equal. by apply dom_taken.
      * f_equal. apply dom_insert_L.
    + rewrite decide_False; [done|]. by apply not_elem_of_dom.
  - unfold allocators_erase. destruct (memory_allocators_ st !! a) eqn:E; simpl.
    + f_equal. apply dom_delete_L.
    + f_equal. by apply dom_absent.
  - unfold WithQuota. by destruct (memory_quotas_ st !! q).
  - unfold WithQuota, WithAllocator.
    destruct (memory_quotas_ st !! q); [|done].
    by destruct (memory_allocators_ st !! a).
  - destruct (decide (min > max)) as [Hgt|Hle].
    { rewrite decide_False; [done|lia]. }
    destruct (decide (max > max_allowed_size)) as [Hgt|Hcap].
    { rewrite decide_False; [done|lia]. }
    unfold WithAllocator. destruct (memory_allocators_ st !! a) as [o|] eqn:E.
    + rewrite decide_True by (split_and!; [lia..|by apply elem_of_dom]).
      destruct (MakeReservation o _ (lib st)) as [res s].
      unfold allocations_emplace. simpl.
      destruct (allocations_ st !! r) eqn:E'; simpl.
      * f_equal. by apply dom_taken.
      * f_equal. apply dom_insert_L.
    + rewrite decide_False; [done|]. intros (_ & _ & Hin).
      by apply not_elem_of_dom in E.
  - unfold allocations_erase. destruct (allocations_ st !! r) eqn:E; simpl.
    + f_equal. apply dom_delete_L.
    + f_equal. by apply dom_absent.
  - destruct (synchronous cfg); [done|].
    unfold WithAllocator. by destruct (memory_allocators_ st !! a).
Qed.

(** X8: which quota, allocator and allocation ids are in use after a
    message without FlushExecCtx actions is fixed by the ids in use before,
    the actions and the per-request cap: an id is added by its Create
    action (CreateAllocator needs a live quota; CreateAllocation needs
    [min ≤ max ≤ cap] and a live allocator), removed by its Delete action,
    and the state of the library plays no part. *)
Theorem ids_of_RunMsg (msg : Msg) (st : Fuzzer) :
  Forall (λ action, ¬ is_flush action) msg →
  ids_of (RunMsg Flush msg st)
  = foldl (ids_step max_allowed_size) (ids_of st) msg.
Proof.
  revert st. induction msg as [|action msg IH]; intros st Hnf; [done|].
  apply Forall_cons in Hnf as [Hnf Hrest].
  unfold RunMsg in *. simpl. rewrite IH by done. by rewrite ids_of_RunAction.
Qed.

Lemma RunAction_keeps_entries (action : Action) (st : Fuzzer) :
  ¬ is_flush action →
  (∀ k q, ¬ deletes_quota k action →
     memory_quotas_ st !! k = Some q →
     memory_quotas_ (RunAction Flush action st) !! k = Some q)
  ∧ (∀ k o, ¬ deletes_allocator k action →
       memory_allocators_ st !! k = Some o →
       memory_allocators_ (RunAction Flush action st) !! k = Some o)
  ∧ (∀ k res, ¬ deletes_allocation k action →
       allocations_ st !! k = Some res →
       allocations_ (RunAction Flush action st) !! k = Some res).
Proof.
  destruct action as [q a r ty].
  unfold is_flush, deletes_quota, deletes_allocator, deletes_allocation, RunAction.
  simpl. intros Hnf.
  assert (∀ st' : Fuzzer,
    memory_quotas_ st' = memory_quotas_ st →
    memory_allocators_ st' = memory_allocators_ st →
    allocations_ st' = allocations_ st →
    (∀ k q0, memory_quotas_ st !! k = Some q0 → memory_quotas_ st' !! k = Some q0)
    ∧ (∀ k o, memory_allocators_ st !! k = Some o →
              memory_allocators_ st' !! k = Some o)
    ∧ (∀ k res, allocations_ st !! k = Some res →
                allocations_ st' !! k = Some res)) as Hsame.
  { intros st' -> -> ->. done. }
  destruct ty as [| | | | |n| |min max| |cfg|]; simpl; try done.
  - destruct (MemoryQuota_new (lib st)) as [qo s]. unfold quotas_emplace. simpl.
    destruct (memory_quotas_ st !! q) eqn:E; simpl; [by split_and!|].
    split_and!; try done. intros k q0 _ Hk.
    rewrite lookup_insert_ne; [done|congruence].
  - unfold quotas_erase. destruct (memory_quotas_ st !! q) eqn:E; simpl;
      [|by split_and!].
    split_and!; try done. intros k q0 Hne Hk.
    rewrite lookup_delete_ne; [done|]. intros ->. by apply Hne.
  - unfold WithQuota. destruct (memory_quotas_ st !! q) eqn:E; [|by split_and!].
    destruct (CreateMemoryOwner m (lib st)) as [o s].
    unfold allocators_emplace. simpl.
    destruct (memory_allocators_ st !! a) eqn:E'; simpl; [by split_and!|].
    split_and!; try done. intros k o0 _ Hk.
    rewrite lookup_insert_ne; [done|congruence].
  - unfold allocators_erase. destruct (memory_allocators_ st !! a) eqn:E; simpl;
      [|by split_and!].
    split_and!; try done. intros k o0 Hne Hk.
    rewrite lookup_delete_ne; [done|]. intros ->. by apply Hne.
  - unfold WithQuota. destruct (memory_quotas_ st !! q); by split_and!.
  - unfold WithQuota, WithAllocator.
    destruct (memory_quotas_ st !! q); [|by split_and!].
    destruct (memory_allocators_ st !! a); by split_and!.
  - destruct (decide (min > max)); [by split_and!|].
    destruct (decide (max > max_allowed_size)); [by split_and!|].
    unfold WithAllocator. destruct (memory_allocators_ st !! a) as [o|] eqn:E;
      [|by split_and!].
    destruct (MakeReservation o _ (lib st)) as [res s].
    unfold allocations_emplace. simpl.
    destruct (allocations_ st !! r) eqn:E'; simpl; [by split_and!|].
    split_and!; try done. intros k res0 _ Hk.
    rewrite lookup_insert_ne; [done|congruence].
  - unfold allocations_erase. destruct (allocations_ st !! r) eqn:E; simpl;
      [|by split_and!].
    split_and!; try done. intros k res0 Hne Hk.
    rewrite lookup_delete_ne; [done|]. intros ->. by apply Hne.
  - destruct (synchronous cfg); [by split_and!|].
    unfold WithAllocator. destruct (memory_allocators_ st !! a); by split_and!.
Qed.

(** X9: through a message without FlushExecCtx actions, an id stays bound
    to the object it names until a Delete action names that id: a Create
    action on an id in use does not replace its entry (the object it built
    is destroyed instead), and no action changes the entry of another id. *)
Theorem RunMsg_keeps_entries (msg : Msg) (st : Fuzzer) :
  Forall (λ action, ¬ is_flush action) msg →
  (∀ k q, Forall (λ action, ¬ deletes_quota k action) msg →
     memory_quotas_ st !! k = Some q →
     memory_quotas_ (RunMsg Flush msg st) !! k = Some q)
  ∧ (∀ k o, Forall (λ action, ¬ deletes_allocator k action) msg →
       memory_allocators_ st !! k = Some o →
       memory_allocators_ (RunMsg Flush msg st) !! k = Some o)
  ∧ (∀ k res, Forall (λ action, ¬ deletes_allocation k action) msg →
       allocations_ st !! k = Some res →
       allocations_ (RunMsg Flush msg st) !! k = Some res).
Proof.
  revert st. induction msg as [|action msg IH]; intros st Hnf; [done|].
  apply Forall_cons in Hnf as [Hnf Hrest].
  destruct (RunAction_keeps_entries action st Hnf) as (H1 & H2 & H3).
  destruct (IH (RunAction Flush action st) Hrest) as (IH1 & IH2 & IH3).
  unfold RunMsg in *. simpl.
  split_and!; intros k x [Hk Hks]%Forall_cons Hx.
  - apply IH1; [done|]. by apply H1.
  - apply IH2; [done|]. by apply H2.
  - apply IH3; [done|]. by apply H3.
Qed.

End fuzzer_more.

(** * The further theorems on concrete inputs *)

Section more_runs.
Import chunked_vector proto fuzzer memory_quota.

Lemma demo_vec_reachable : reachable 2 demo_vec.
Proof. apply (from_range_reachable 2 [1; 2; 3]%nat). reflexivity. Qed.

Lemma demo_full_reachable : reachable 2 demo_full.
Proof. apply (from_range_reachable 2 [1; 2]%nat). reflexivity. Qed.

Lemma Clear_empties_witness :
  (0 < 2 ∧ reachable 2 demo_vec
  ∧ ∃ v', Clear 2 demo_vec = Done v'
          ∧ reachable 2 v'
          ∧ elements 2 v' = Done []
          ∧ begin v' = Done end_
          ∧ size v' = Done 0%Z
          ∧ PopBack v' = AssertionFailed
          ∧ length (arena_ v') = length (arena_ demo_vec)
          ∧ first_ v' = first_ demo_vec
          ∧ append_ v' = first_ demo_vec
          ∧ next <$> arena_ v' = next <$> arena_ demo_vec
          ∧ ∀ j c, arena_ v' !! j = Some c → count c = 0)%nat.
Proof.
  split; [lia|]. split; [exact demo_vec_reachable|].
  exact (Clear_empties 2 ltac:(lia) demo_vec demo_vec_reachable).
Defined.

Lemma from_range_elements_witness :
  (0 < 2)%nat
  ∧ ∃ v, from_range 2 [1; 2; 3]%nat = Done v
         ∧ reachable 2 v
         ∧ elements 2 v = Done [1; 2; 3]%nat
         ∧ size v = Done (size_t_wrap (Z.of_nat (length [1; 2; 3]%nat))).
Proof.
  split; [lia|]. exact (from_range_elements 2 ltac:(lia) [1; 2; 3]%nat).
Defined.

Lemma from_range_chunks_witness :
  (0 < 2)%nat
  ∧ from_range 2 [1; 2; 3]%nat = Done demo_vec
  ∧ (length (arena_ demo_vec) * 2 < length [1; 2; 3]%nat + 2)%nat
  ∧ (length [1; 2; 3]%nat ≤ length (arena_ demo_vec) * 2)%nat
  ∧ ((length [1; 2; 3]%nat ≤ 2)%nat → (length (arena_ demo_vec) ≤ 1)%nat).
Proof.
  split; [lia|]. split; [reflexivity|].
  exact (from_range_chunks 2 ltac:(lia) [1; 2; 3]%nat demo_vec eq_refl).
Defined.

Lemma chunks_taken_only_when_full_witness :
  (0 < 2)%nat ∧ reachable 2 demo_full
  ∧ elements 2 demo_full = Done [1; 2]%nat
  ∧ EmplaceBack 2 3%nat demo_full = Done demo_vec
  ∧ length (arena_ demo_vec)
    = if decide (length [1; 2]%nat = (length (arena_ demo_full) * 2)%nat)
      then S (length (arena_ demo_full)) else length (arena_ demo_full).
Proof.
  split; [lia|]. split; [exact demo_full_reachable|].
  split; [reflexivity|]. split; [reflexivity|].
  exact (proj1 (chunks_taken_only_when_full 2 ltac:(lia) demo_full
                  demo_full_reachable)
           3%nat demo_vec [1; 2]%nat eq_refl eq_refl).
Defined.

Lemma copy_elements_witness :
  (0 < 2)%nat ∧ reachable 2 demo_vec
  ∧ ∃ l v,
      elements 2 demo_vec = Done l
      ∧ copy 2 demo_vec = Done v
      ∧ from_range 2 l = Done v
      ∧ reachable 2 v
      ∧ elements 2 v = Done l
      ∧ (length (arena_ v) ≤ length (arena_ demo_vec))%nat.
Proof.
  split; [lia|]. split; [exact demo_vec_reachable|].
  exact (copy_elements 2 ltac:(lia) demo_vec demo_vec_reachable).
Defined.

(** The copy of a vector that has spare chunks has none: three values are
    appended and two are taken off again. *)
Example copy_drops_spare_chunks :
  (v ← from_range 2 [1; 2; 3]%nat;
   p ← PopBack v; p ← PopBack p.2;
   w ← copy 2 p.2;
   Done (length (arena_ p.2), length (arena_ w), elements 2 w))
  = Done (2%nat, 1%nat, Done [1%nat]).
Proof. reflexivity. Qed.

Lemma demo_cleared_reachable : reachable 2 demo_cleared.
Proof.
  apply (reachable_Clear 2 demo_vec); [apply demo_vec_reachable|reflexivity].
Qed.

Lemma begin_is_end_iff_empty_witness :
  (0 < 2 ∧ reachable 2 demo_cleared
  ∧ (begin demo_cleared = Done end_
     ↔ ∀ j c, arena_ demo_cleared !! j = Some c → count c = 0)
  ∧ (begin demo_cleared = Done end_ → size demo_cleared = Done 0%Z)
  ∧ (size demo_cleared = Done 0%Z →
     (Z.of_nat (length (arena_ demo_cleared) * 2) < 2 ^ SIZE_WIDTH)%Z →
     begin demo_cleared = Done end_)
  ∧ (begin demo_cleared ≠ Done end_ →
     ∃ x, begin demo_cleared = Done (mkIter (Some 0) 0)
          ∧ star demo_cleared (mkIter (Some 0) 0) = Done x))%nat.
Proof.
  split; [lia|]. split; [exact demo_cleared_reachable|].
  exact (begin_is_end_iff_empty 2 ltac:(lia) demo_cleared demo_cleared_reachable).
Defined.

(** [begin()] of a vector emptied by [Clear], of one emptied by [PopBack],
    and of one that holds elements. *)
Example begin_of_emptied_vectors :
  (begin demo_cleared = Done end_
  ∧ (v ← from_range 2 [1; 2; 3]; p ← PopBack v; p ← PopBack p.2; p ← PopBack p.2;
     begin p.2) = Done end_
  ∧ begin demo_vec = Done (mkIter (Some 0) 0))%nat.
Proof. split_and!; reflexivity. Qed.

Lemma reachable_chain_invariant_witness :
  (0 < 2 ∧ reachable 2 demo_vec
  ∧ first_ demo_vec = (if decide (0 < length (arena_ demo_vec)) then Some 0 else None)
  ∧ (first_ demo_vec = None ↔ append_ demo_vec = None)
  ∧ (append_ demo_vec = None → arena_ demo_vec = [])
  ∧ (∀ i, append_ demo_vec = Some i → i < length (arena_ demo_vec))
  ∧ ∀ j c, arena_ demo_vec !! j = Some c →
      next c = (if decide (S j < length (arena_ demo_vec)) then Some (S j) else None)
      ∧ length (data c) = 2
      ∧ count c ≤ 2
      ∧ (∀ s, s < count c → ∃ x, data c !! s = Some (Some x))
      ∧ ∀ i, append_ demo_vec = Some i →
             (j < i → count c = 2) ∧ (i < j → count c = 0))%nat.
Proof.
  split; [lia|]. split; [exact demo_vec_reachable|].
  exact (reachable_chain_invariant 2 ltac:(lia) demo_vec demo_vec_reachable).
Defined.
Lemma PopBack_EmplaceBack_witness :
  let v1 := mkVec [mkChunk (Some 1%nat) 2 [Some 1%nat; Some 2%nat];
                   mkChunk None 0 [None; None]] (Some 0%nat) (Some 1%nat) in
  (0 < 2)%nat ∧ reachable 2 demo_vec
  ∧ PopBack demo_vec = Done (3%nat, v1)
  ∧ ∃ v2 l,
      EmplaceBack 2 3%nat v1 = Done v2
      ∧ elements 2 demo_vec = Done (l ++ [3%nat])
      ∧ elements 2 v1 = Done l
      ∧ elements 2 v2 = Done (l ++ [3%nat])
      ∧ length (arena_ v2) = length (arena_ demo_vec).
Proof.
  intros v1. split; [lia|]. split; [exact demo_vec_reachable|].
  split; [reflexivity|].
  exact (PopBack_EmplaceBack 2 ltac:(lia) demo_vec 3%nat v1 demo_vec_reachable
           eq_refl).
Defined.

Lemma setup_msg_no_flush : Forall (λ action, ¬ is_flush action) setup_msg.
Proof. repeat constructor; by intros [=]. Qed.

Lemma over_budget_msg_no_flush :
  Forall (λ action, ¬ is_flush action) over_budget_msg.
Proof. repeat constructor; by intros [=]. Qed.

Lemma ids_of_RunMsg_witness :
  Forall (λ action, ¬ is_flush action) setup_msg
  ∧ ids_of ready_fuzzer
    = foldl (ids_step cap_1G) (ids_of fresh_fuzzer) setup_msg.
Proof.
  split; [exact setup_msg_no_flush|].
  exact (ids_of_RunMsg (Lib := SpecLib cap_1G) id setup_msg fresh_fuzzer
           setup_msg_no_flush).
Defined.

Example ids_of_over_budget_fuzzer :
  ids_of over_budget_fuzzer = mkIds {[0]} {[0]} {[0; 1]}.
Proof. reflexivity. Qed.

Lemma RunMsg_keeps_entries_witness :
  Forall (λ action, ¬ is_flush action) over_budget_msg
  ∧ Forall (λ action, ¬ deletes_quota 0 action) over_budget_msg
  ∧ memory_quotas_ ready_fuzzer !! 0 = Some 0%nat
  ∧ memory_quotas_ over_budget_fuzzer !! 0 = Some 0%nat.
Proof.
  assert (Forall (λ action, ¬ deletes_quota 0 action) over_budget_msg) as Hnd
    by (repeat constructor; by intros [[=] _]).
  split; [exact over_budget_msg_no_flush|]. split; [exact Hnd|].
  split; [reflexivity|].
  exact (proj1 (RunMsg_keeps_entries (Lib := SpecLib cap_1G) id over_budget_msg
                  ready_fuzzer over_budget_msg_no_flush)
           0 0%nat Hnd eq_refl).
Defined.

End more_runs.
